(** * splat: the Animation frame clock and the Camera offset helper

    A shallow embedding of [lib/animation.js] and [lib/camera.js].

    Modelling decisions.
    - JavaScript objects live in a store.  The frame array of an Animation
      is a heap cell holding a list of frame records; an Animation object
      holds a reference to it, so that [copy] can alias it.
    - Times ([time], [elapsedMillis]) are integral milliseconds, in [Z];
      frame indices are in [Z], and an index outside the array reads
      [undefined], whose [.time] / [.img] access raises a TypeError.
      The code computes the clock with binary64 numbers.  Every integer of
      magnitude at most 2^53 is a binary64 number, and a sum or difference
      of two of them that stays in this range is computed without
      rounding: on such values the integral clock is the clock of the
      code.  Statements that depend on the arithmetic being exact carry
      this range as hypotheses.  Module [Binary64] has the same methods
      with the clock in binary64 (the kernel's primitive floats), and runs
      them where rounding changes the outcome.
    - The [while] loop of [move] is run with fuel; running out of fuel is a
      distinct outcome, so that termination is a statement about the model.
    - The pixel transforms of [lib/buffer.js] and the image type are
      parameters of the development.
    - A camera coordinate is a JavaScript number; [x|0] is ECMAScript's
      ToInt32, defined here on the exact rational value of the number. *)

From Stdlib Require Import ZArith QArith Qround Qabs Lia.
From Stdlib Require PrimFloat.
From stdpp Require Import base option list gmap fin_maps.

Open Scope Z_scope.

(** ** Outcomes of a method call *)

Inductive result (A : Type) : Type :=
  | Ok (a : A)        (* normal completion *)
  | TypeError         (* property access on [undefined] *)
  | OutOfFuel.        (* the loop has not finished within the fuel given *)

Arguments Ok {A} a.
Arguments TypeError {A}.
Arguments OutOfFuel {A}.

Definition bind_result {A B : Type} (r : result A) (k : A → result B) : result B :=
  match r with
  | Ok a => k a
  | TypeError => TypeError
  | OutOfFuel => OutOfFuel
  end.

(** ** The canvas rendering context

    The browser's [CanvasRenderingContext2D], restricted to what the two
    files call: [save], [restore], [translate] and [drawImage].  Only
    translations are ever applied, so the current transform is the device
    position of the user-space origin. *)

Module Canvas.
Section Canvas.

Context {Image : Type}.

Record Context : Type := mkContext {
  origin : Z * Z;                     (* current transform *)
  saved : list (Z * Z);               (* the stack of saved states *)
  drawn : list (Image * (Z * Z))      (* images drawn, at device positions *)
}.

Definition translate (c : Context) (dx dy : Z) : Context :=
  mkContext (fst (origin c) + dx, snd (origin c) + dy) (saved c) (drawn c).

Definition save (c : Context) : Context :=
  mkContext (origin c) (origin c :: saved c) (drawn c).

(** [restore] on an empty stack does nothing. *)
Definition restore (c : Context) : Context :=
  match saved c with
  | [] => c
  | o :: s => mkContext o s (drawn c)
  end.

Definition drawImage (c : Context) (i : Image) (x y : Z) : Context :=
  mkContext (origin c) (saved c)
            (drawn c ++ [(i, (fst (origin c) + x, snd (origin c) + y))]).

End Canvas.
Arguments Context Image : clear implicits.
End Canvas.

(** ** The data model *)

Abbreviation loc := positive.

(** [lib/buffer.js], the pixel transforms used by the flip and rotate
    methods of Animation; the module is not part of the two files. *)
Record Buffer (Image : Type) : Type := mkBuffer {
  flipBufferHorizontally : Image → Image;
  flipBufferVertically : Image → Image;
  buffer_rotateClockwise : Image → Image;
  buffer_rotateCounterclockwise : Image → Image
}.
Arguments flipBufferHorizontally {Image}.
Arguments flipBufferVertically {Image}.
Arguments buffer_rotateClockwise {Image}.
Arguments buffer_rotateCounterclockwise {Image}.

Module Animation.
Section Animation.

(** The image (canvas or img element) type, with the two dimensions read
    by [add]. *)
Context {Image : Type}.
Variables img_width img_height : Image → Z.
Variable buffer : Buffer Image.

(** One element of [this.frames]: [{ img: img, time: time }]. *)
Record Frame : Type := mkFrame { img : Image; time : Z }.

(** The fields of an Animation object. *)
Record Animation : Type := mkAnimation {
  frames : loc;          (* reference to the frame array *)
  frame : Z;
  elapsedMillis : Z;
  repeatAt : Z;
  width : Z;
  height : Z
}.

(** The store of frame arrays. *)
Local Abbreviation heap := (gmap loc (list Frame)).

Definition set_frames (a : Animation) (l : loc) : Animation :=
  mkAnimation l (frame a) (elapsedMillis a) (repeatAt a) (width a) (height a).
Definition set_frame (a : Animation) (v : Z) : Animation :=
  mkAnimation (frames a) v (elapsedMillis a) (repeatAt a) (width a) (height a).
Definition set_elapsedMillis (a : Animation) (v : Z) : Animation :=
  mkAnimation (frames a) (frame a) v (repeatAt a) (width a) (height a).
Definition set_repeatAt (a : Animation) (v : Z) : Animation :=
  mkAnimation (frames a) (frame a) (elapsedMillis a) v (width a) (height a).
Definition set_width (a : Animation) (v : Z) : Animation :=
  mkAnimation (frames a) (frame a) (elapsedMillis a) (repeatAt a) v (height a).
Definition set_height (a : Animation) (v : Z) : Animation :=
  mkAnimation (frames a) (frame a) (elapsedMillis a) (repeatAt a) (width a) v.

(** [this.frames], dereferenced. *)
Definition frames_of (h : heap) (a : Animation) : list Frame :=
  default [] (h !! frames a).

(** [arr[i]] for a numeric index: [None] stands for [undefined]. *)
Definition index {A : Type} (l : list A) (i : Z) : option A :=
  if decide (0 ≤ i) then l !! Z.to_nat i else None.

(** [this.frames[this.frame]] *)
Definition current_frame (h : heap) (a : Animation) : option Frame :=
  index (frames_of h a) (frame a).

(** The cursor, and the loop index, address a frame of the array. *)
Definition valid_cursor (h : heap) (a : Animation) : Prop :=
  0 ≤ frame a < Z.of_nat (length (frames_of h a)).
Definition valid_repeatAt (h : heap) (a : Animation) : Prop :=
  0 ≤ repeatAt a < Z.of_nat (length (frames_of h a)).

(** ** The constructor and the methods *)

(** [function Animation()]: allocates the empty frame array. *)
Definition Animation_new (h : heap) : heap * Animation :=
  let l := fresh (dom h) in
  (<[l := []]> h, mkAnimation l 0 0 0 0 0).

(** [Animation.prototype.copy] *)
Definition copy (h : heap) (this : Animation) : heap * Animation :=
  let '(h1, anim) := Animation_new h in
  let anim := set_frames anim (frames this) in
  let anim := set_frame anim (frame this) in
  let anim := set_elapsedMillis anim (elapsedMillis this) in
  let anim := set_repeatAt anim (repeatAt this) in
  let anim := set_width anim (width this) in
  let anim := set_height anim (height this) in
  (h1, anim).

(** [Animation.prototype.add] *)
Definition add (h : heap) (this : Animation) (i : Image) (t : Z) : heap * Animation :=
  let fs := frames_of h this ++ [mkFrame i t] in
  let h1 := <[frames this := fs]> h in
  if decide (length fs = 1%nat)
  then (h1, set_height (set_width this (img_width i)) (img_height i))
  else (h1, this).

(** [Animation.prototype.step] *)
Definition step (h : heap) (this : Animation) : Animation :=
  let this := set_frame this (frame this + 1) in
  if decide (Z.of_nat (length (frames_of h this)) ≤ frame this)
  then set_frame this (repeatAt this)
  else this.

(** The [while] loop of [move]. *)
Fixpoint move_loop (fuel : nat) (h : heap) (this : Animation) : result Animation :=
  match fuel with
  | O => OutOfFuel
  | S fuel' =>
      match current_frame h this with
      | None => TypeError
      | Some f =>
          if decide (time f < elapsedMillis this)
          then
            match current_frame h this with
            | None => TypeError
            | Some g =>
                let this := set_elapsedMillis this (elapsedMillis this - time g) in
                move_loop fuel' h (step h this)
            end
          else Ok this
      end
  end.

(** [Animation.prototype.move] *)
Definition move (fuel : nat) (h : heap) (this : Animation) (millis : Z)
  : result Animation :=
  let this := set_elapsedMillis this (elapsedMillis this + millis) in
  move_loop fuel h this.

(** [Animation.prototype.reset] *)
Definition reset (this : Animation) : Animation :=
  set_elapsedMillis (set_frame this 0) 0.

(** [Animation.prototype.draw] *)
Definition draw (h : heap) (this : Animation) (context : Canvas.Context Image)
    (x y : Z) : result (Canvas.Context Image) :=
  match current_frame h this with
  | None => TypeError
  | Some f => Ok (Canvas.drawImage context (img f) x y)
  end.

(** [this.frames[i].img = g(this.frames[i].img)] *)
Definition set_img (g : Image → Image) (f : Frame) : Frame :=
  mkFrame (g (img f)) (time f).

(** [for (var i = 0; i < this.frames.length; i++) { ... }], entered at
    index [i] with [n] iterations to go. *)
Fixpoint for_frames (g : Image → Image) (n i : nat) (fs : list Frame) : list Frame :=
  match n with
  | O => fs
  | S n' => for_frames g n' (S i) (alter (set_img g) i fs)
  end.

Definition transform_frames (g : Image → Image) (h : heap) (this : Animation) : heap :=
  let fs := frames_of h this in
  <[frames this := for_frames g (length fs) 0 fs]> h.

(** [Animation.prototype.flipHorizontally] *)
Definition flipHorizontally (h : heap) (this : Animation) : heap * Animation :=
  (transform_frames (flipBufferHorizontally buffer) h this, this).

(** [Animation.prototype.flipVertically] *)
Definition flipVertically (h : heap) (this : Animation) : heap * Animation :=
  (transform_frames (flipBufferVertically buffer) h this, this).

(** [Animation.prototype.rotateClockwise] *)
Definition rotateClockwise (h : heap) (this : Animation) : heap * Animation :=
  let w := width this in
  let this := set_width this (height this) in
  let this := set_height this w in
  (transform_frames (buffer_rotateClockwise buffer) h this, this).

(** [Animation.prototype.rotateCounterclockwise] *)
Definition rotateCounterclockwise (h : heap) (this : Animation) : heap * Animation :=
  let w := width this in
  let this := set_width this (height this) in
  let this := set_height this w in
  (transform_frames (buffer_rotateCounterclockwise buffer) h this, this).

(** *** Animation objects in the store

    Two variables of the program may hold the same Animation or two
    different ones; a [world] gives every Animation object an identity. *)

Record world : Type := mkWorld {
  objects : gmap loc Animation;
  arrays : heap
}.

(** [obj.m(...)] for a method [m] that returns nothing or [this]. *)
Definition invoke (m : heap → Animation → heap * Animation)
    (w : world) (this : loc) : world :=
  match objects w !! this with
  | None => w
  | Some a =>
      let '(h, a') := m (arrays w) a in
      mkWorld (<[this := a']> (objects w)) h
  end.

(** [var dup = obj.copy()] *)
Definition invoke_copy (w : world) (this : loc) : option (world * loc) :=
  match objects w !! this with
  | None => None
  | Some a =>
      let '(h, anim) := copy (arrays w) a in
      let r := fresh (dom (objects w)) in
      Some (mkWorld (<[r := anim]> (objects w)) h, r)
  end.

(** [obj.draw(context, x, y)] *)
Definition invoke_draw (w : world) (this : loc) (context : Canvas.Context Image)
    (x y : Z) : result (Canvas.Context Image) :=
  match objects w !! this with
  | None => TypeError
  | Some a => draw (arrays w) a context x y
  end.

End Animation.
Arguments Frame Image : clear implicits.
Arguments Animation : clear implicits.
Arguments world Image : clear implicits.

(** The store of frame arrays. *)
Abbreviation heap Image := (gmap loc (list (Frame Image))).
End Animation.

(** ** The camera *)

Module Camera.

(** A JavaScript number: a finite value, given exactly, or one of the
    three non-finite values. *)
Inductive number : Type :=
  | Num (q : Q)
  | NaN
  | Infinity (negative : bool).

(** ECMAScript ToInt32, the conversion behind [v|0]:
    non-finite values go to 0; otherwise
    [int = sign(v) * floor(abs(v))], [int32bit = int modulo 2^32], and
    the result is [int32bit - 2^32] when [int32bit >= 2^31]. *)
Definition ToInt32 (v : number) : Z :=
  match v with
  | Num q =>
      let int := Z.sgn (Qnum q) * Qfloor (Qabs q) in
      let int32bit := int mod 2 ^ 32 in
      if decide (2 ^ 31 ≤ int32bit) then int32bit - 2 ^ 32 else int32bit
  | NaN | Infinity _ => 0
  end.

(** Rounding toward zero, and the signed 32-bit range. *)
Definition truncate (q : Q) : Z := Z.quot (Qnum q) (Zpos (Qden q)).
Definition int32 (z : Z) : Prop := - 2 ^ 31 ≤ z < 2 ^ 31.

(** The fields that [Entity.call(this, x, y, width, height)] stores
    ([lib/entity.js] is not part of the two files). *)
Record Camera : Type := mkCamera {
  x : number;
  y : number;
  width : number;
  height : number
}.

(** How a call of [drawFunc()] ends, and the context it leaves behind. *)
Inductive completion (A : Type) : Type :=
  | Returned (a : A)
  | Thrown (a : A).
Arguments Returned {A} a.
Arguments Thrown {A} a.


Section Camera.

Context {Image : Type}.

(** A draw callback: a closure over the context, which it may use in any
    way before it returns or throws. *)
Definition drawCallback : Type :=
  Canvas.Context Image → completion (Canvas.Context Image).

(** [Camera.prototype.draw] *)
Definition draw (this : Camera) (context : Canvas.Context Image)
  : Canvas.Context Image :=
  Canvas.translate context (- ToInt32 (x this)) (- ToInt32 (y this)).

(** [Camera.prototype.drawAbsolute]: an exception of [drawFunc]
    propagates from the call, [context.restore()] is not reached. *)
Definition drawAbsolute (this : Camera) (context : Canvas.Context Image)
    (drawFunc : drawCallback) : completion (Canvas.Context Image) :=
  let context := Canvas.save context in
  let context := Canvas.translate context (ToInt32 (x this)) (ToInt32 (y this)) in
  match drawFunc context with
  | Thrown context => Thrown context
  | Returned context => Returned (Canvas.restore context)
  end.

End Camera.
End Camera.

(** ** Concrete sequencers, used to run the model *)

Module Examples.
Import Animation.

(** Images are opaque handles; here they are numbered. *)
Definition three_frames : list (Frame nat) :=
  [mkFrame 0%nat 100; mkFrame 1%nat 100; mkFrame 2%nat 100].


Definition heap3 : heap nat := {[ 1%positive := three_frames ]}.

(** A sequencer at its first frame, on the array at location 1. *)
Definition start : Animation := mkAnimation 1%positive 0 0 0 0 0.

(** A frame that lasts no time, and one of negative duration. *)
Definition heap_zero : heap nat := {[ 1%positive := [mkFrame 0%nat 0] ]}.
Definition heap_negative : heap nat := {[ 1%positive := [mkFrame 0%nat (-5)] ]}.

(** Handles are renumbered by the transforms. *)
Definition buffer : Buffer nat :=
  mkBuffer nat (λ i, i + 10)%nat (λ i, i + 20)%nat (λ i, i + 30)%nat (λ i, i + 40)%nat.

(** A camera left of the origin, at x = -1.5, and one at (3.5, 4); a
    blank context. *)
Definition camera_left : Camera.Camera :=
  Camera.mkCamera (Camera.Num (-3 # 2)) (Camera.Num 0) (Camera.Num 640) (Camera.Num 480).
Definition camera34 : Camera.Camera :=
  Camera.mkCamera (Camera.Num (7 # 2)) (Camera.Num 4) (Camera.Num 640) (Camera.Num 480).
Definition blank : Canvas.Context nat := Canvas.mkContext (0, 0) [] [].


(** Two program variables: object 1 is an Animation on the array at 1. *)
Definition world3 : world nat := mkWorld {[ 1%positive := start ]} heap3.

End Examples.

(** ** Notions used to state how the methods compose *)

Section Derived.
Import Animation.

Context {Image : Type}.

(** The time one pass over the frames takes. *)
Definition total_time (fs : list (Frame Image)) : Z :=
  foldr (λ f s, time f + s) 0 fs.

(** [anim.add(img1, t1); anim.add(img2, t2); ...], as a loader does. *)
Definition add_frames (img_width img_height : Image → Z)
    (h : heap Image) (this : Animation) (l : list (Image * Z))
  : heap Image * Animation :=
  foldl (λ s it, add img_width img_height (fst s) (snd s) (fst it) (snd it))
        (h, this) l.

End Derived.

Module MoreExamples.
Import Animation.

(** Image handles with dimensions, and a provider whose transforms undo
    each other: flips toggle a flag, rotations count quarter turns. *)
Definition sprite_width (i : nat) : Z := 16 * (Z.of_nat i + 1).
Definition sprite_height (i : nat) : Z := 8 * (Z.of_nat i + 1).

Definition turning : Buffer Z :=
  mkBuffer Z (λ i, - i) (λ i, - i) (λ i, i + 1) (λ i, i - 1).

Definition turning_heap : heap Z :=
  {[ 1%positive := [mkFrame 5 100; mkFrame 6 40] ]}.

(** An intro frame followed by a two-frame loop. *)
Definition intro_loop : Animation := mkAnimation 1%positive 1 0 1 0 0.


(** Looping disabled: [repeatAt] is the last of three frames. *)
Definition hold_last : Animation := mkAnimation 1%positive 2 0 2 0 0.

(** An Animation of 32 by 16 on the two turning frames. *)
Definition wide : Animation := mkAnimation 1%positive 0 0 0 32 16.
Definition turning_world : world Z := mkWorld {[ 1%positive := wide ]} turning_heap.

(** Cameras at whole positions, 2^32 apart on the x axis. *)
Definition camera50 : Camera.Camera :=
  Camera.mkCamera (Camera.Num (inject_Z 50)) (Camera.Num 50)
                  (Camera.Num 640) (Camera.Num 480).
Definition camera_far : Camera.Camera :=
  Camera.mkCamera (Camera.Num (inject_Z (50 + 2 ^ 32))) (Camera.Num 50)
                  (Camera.Num 640) (Camera.Num 480).

End MoreExamples.

(** ** The clock in binary64

    [step] and [move] once more, with [time] and [elapsedMillis] as the
    binary64 numbers of the code: [+=], [-=] and [>] round and compare as
    IEEE 754 prescribes. *)

Module Binary64.
Import PrimFloat.

Section Binary64.

Context {Image : Type}.

Record Frame : Type := mkFrame { img : Image; time : float }.

Record Animation : Type := mkAnimation {
  frames : loc;
  frame : Z;
  elapsedMillis : float;
  repeatAt : Z;
  width : Z;
  height : Z
}.

Local Abbreviation heap := (gmap loc (list Frame)).

Definition set_frame (a : Animation) (v : Z) : Animation :=
  mkAnimation (frames a) v (elapsedMillis a) (repeatAt a) (width a) (height a).
Definition set_elapsedMillis (a : Animation) (v : float) : Animation :=
  mkAnimation (frames a) (frame a) v (repeatAt a) (width a) (height a).

Definition frames_of (h : heap) (a : Animation) : list Frame :=
  default [] (h !! frames a).

Definition current_frame (h : heap) (a : Animation) : option Frame :=
  Animation.index (frames_of h a) (frame a).

(** [Animation.prototype.step] *)
Definition step (h : heap) (this : Animation) : Animation :=
  let this := set_frame this (frame this + 1) in
  if decide (Z.of_nat (length (frames_of h this)) ≤ frame this)
  then set_frame this (repeatAt this)
  else this.

(** The [while] loop of [move]: [a > b] is [b < a] of binary64. *)
Fixpoint move_loop (fuel : nat) (h : heap) (this : Animation) : result Animation :=
  match fuel with
  | O => OutOfFuel
  | S fuel' =>
      match current_frame h this with
      | None => TypeError
      | Some f =>
          if ltb (time f) (elapsedMillis this)
          then
            match current_frame h this with
            | None => TypeError
            | Some g =>
                let this :=
                  set_elapsedMillis this (sub (elapsedMillis this) (time g)) in
                move_loop fuel' h (step h this)
            end
          else Ok this
      end
  end.

(** [Animation.prototype.move] *)
Definition move (fuel : nat) (h : heap) (this : Animation) (millis : float)
  : result Animation :=
  let this := set_elapsedMillis this (add (elapsedMillis this) millis) in
  move_loop fuel h this.

End Binary64.
Arguments Frame Image : clear implicits.

Abbreviation heap Image := (gmap loc (list (Frame Image))).

(** Three frames of 100 ms, one frame of 1 ms, a frame of no duration
    before one of 100 ms, and one frame of 2^53 - 1 ms. *)
Definition three_frames : heap nat :=
  {[ 1%positive := [mkFrame 0%nat 100; mkFrame 1%nat 100; mkFrame 2%nat 100] ]}.
Definition one_long : heap nat :=
  {[ 1%positive := [mkFrame 0%nat 9007199254740991] ]}.

(** A sequencer at its first frame with the clock at 0. *)
Definition start : Animation := mkAnimation 1%positive 0 0 0 0 0.

(** The binary64 numbers that JavaScript reads for [150.1] and [0.4],
    and 2^60. *)
Definition d150_1 : float := 0x1.2c33333333333p+7.
Definition d0_4 : float := 0x1.999999999999ap-2.

End Binary64.

(** * Properties of the Animation clock *)

Section AnimationFacts.
Import Animation.

Context {Image : Type}.
Implicit Types (h : heap Image) (a this : Animation) (fs : list (Frame Image)).

(** *** Array reads *)

Lemma index_Some {A : Type} (l : list A) (i : Z) (v : A) :
  index l i = Some v → 0 ≤ i < Z.of_nat (length l) ∧ v ∈ l.
Proof.
  unfold index. case_decide as Hi; [|done].
  intros Hl. split.
  - apply lookup_lt_Some in Hl. lia.
  - by eapply list_elem_of_lookup_2.
Qed.

Lemma index_is_Some {A : Type} (l : list A) (i : Z) :
  0 ≤ i < Z.of_nat (length l) → is_Some (index l i).
Proof.
  intros [Hlo Hhi]. unfold index. rewrite decide_True by done.
  apply lookup_lt_is_Some. lia.
Qed.


(** *** [step] *)

Lemma step_inside h a :
  frame a + 1 < Z.of_nat (length (frames_of h a)) →
  step h a = set_frame a (frame a + 1).
Proof.
  intros Hlt. unfold step. cbn. rewrite decide_False; [done|].
  change (frames_of h (set_frame a (frame a + 1))) with (frames_of h a). lia.
Qed.

Lemma step_wraps h a :
  Z.of_nat (length (frames_of h a)) ≤ frame a + 1 →
  step h a = set_frame a (repeatAt a).
Proof.
  intros Hge. unfold step. cbn. rewrite decide_True; [done|].
  change (frames_of h (set_frame a (frame a + 1))) with (frames_of h a). lia.
Qed.

Lemma frames_of_step h a : frames_of h (step h a) = frames_of h a.
Proof. unfold step. by case_decide. Qed.

Lemma step_elapsedMillis h a : elapsedMillis (step h a) = elapsedMillis a.
Proof. unfold step. by case_decide. Qed.

Lemma step_repeatAt h a : repeatAt (step h a) = repeatAt a.
Proof. unfold step. by case_decide. Qed.

Lemma step_set_elapsedMillis h a v :
  step h (set_elapsedMillis a v) = set_elapsedMillis (step h a) v.
Proof. unfold step, frames_of. cbn. by case_decide. Qed.

Lemma step_valid_cursor h a :
  valid_repeatAt h a → -1 ≤ frame a → valid_cursor h (step h a).
Proof.
  unfold valid_repeatAt, valid_cursor. intros Hr Hc.
  rewrite frames_of_step.
  destruct (decide (frame a + 1 < Z.of_nat (length (frames_of h a)))) as [Hlt|Hge].
  - rewrite step_inside by done. cbn. lia.
  - rewrite step_wraps by lia. cbn. lia.
Qed.

Lemma iter_step_inside h a (k : nat) :
  frame a + Z.of_nat k < Z.of_nat (length (frames_of h a)) →
  Nat.iter k (step h) a = set_frame a (frame a + Z.of_nat k).
Proof.
  induction k as [|k IH]; intros Hlt.
  - cbn. destruct a; unfold set_frame; cbn. f_equal. lia.
  - rewrite Nat.iter_succ, IH by lia.
    rewrite step_inside; cbn.
    + unfold set_frame; cbn. f_equal. lia.
    + change (frames_of h (set_frame a (frame a + Z.of_nat k)))
        with (frames_of h a). lia.
Qed.

(** A full lap from any frame, when the animation loops to frame 0. *)
Lemma iter_step_lap h a :
  repeatAt a = 0 → valid_cursor h a →
  Nat.iter (length (frames_of h a)) (step h) a = a.
Proof.
  unfold valid_cursor. intros Hr [Hlo Hhi].
  pose (i := Z.to_nat (frame a)).
  pose (j := (length (frames_of h a) - 1 - i)%nat).
  assert (Hn : length (frames_of h a) = (i + S j)%nat) by lia.
  rewrite Hn, Nat.iter_add, Nat.iter_succ.
  rewrite (iter_step_inside h a j) by lia.
  rewrite step_wraps; cbn.
  2:{ change (frames_of h (set_frame a (frame a + Z.of_nat j)))
        with (frames_of h a). lia. }
  rewrite iter_step_inside; cbn.
  - destruct a; unfold set_frame; cbn in *. f_equal. lia.
  - change (frames_of h _) with (frames_of h a). lia.
Qed.

(** *** The catch-up loop of [move] *)

Lemma move_loop_S (fuel : nat) h a :
  move_loop (S fuel) h a =
  match current_frame h a with
  | None => TypeError
  | Some f =>
      if decide (time f < elapsedMillis a)
      then move_loop fuel h (step h (set_elapsedMillis a (elapsedMillis a - time f)))
      else Ok a
  end.
Proof. cbn [move_loop]. by destruct (current_frame h a). Qed.

Lemma current_frame_step_elapsed h a v :
  current_frame h (set_elapsedMillis a v) = current_frame h a.
Proof. reflexivity. Qed.

(** More fuel does not change a finished run. *)
Lemma move_loop_mono (k : nat) h a (r : result Animation) :
  move_loop k h a = r → r ≠ OutOfFuel →
  ∀ k' : nat, (k ≤ k')%nat → move_loop k' h a = r.
Proof.
  revert a. induction k as [|k IH]; intros a Hrun Hr k' Hle.
  - cbn in Hrun. congruence.
  - destruct k' as [|k']; [lia|].
    rewrite move_loop_S in *.
    destruct (current_frame h a) as [f|]; [|done].
    case_decide; [|done].
    apply IH; [done|done|lia].
Qed.

(** A run that ends in a TypeError ends in it whatever time is added. *)
Lemma move_loop_TypeError_later (k : nat) h a (d : Z) :
  0 ≤ d → move_loop k h a = TypeError →
  move_loop k h (set_elapsedMillis a (elapsedMillis a + d)) = TypeError.
Proof.
  intros Hd. revert a. induction k as [|k IH]; intros a Hrun.
  - cbn in Hrun. congruence.
  - rewrite move_loop_S in *. rewrite current_frame_step_elapsed.
    destruct (current_frame h a) as [f|]; [|done].
    cbn [elapsedMillis set_elapsedMillis].
    case_decide as Hlt.
    + rewrite decide_True by lia.
      rewrite !step_set_elapsedMillis in *.
      specialize (IH _ Hrun). cbn [elapsedMillis set_elapsedMillis] in IH.
      rewrite <- IH. f_equal. unfold set_elapsedMillis; cbn. f_equal. lia.
    + congruence.
Qed.

(** The time added by a second [move] is consumed after the first has
    been normalised: the longer run passes through the state the first
    one ends in. *)
Lemma move_loop_later (k m : nat) h a a' (d : Z) (r : result Animation) :
  0 ≤ d → move_loop k h a = Ok a' →
  move_loop m h (set_elapsedMillis a' (elapsedMillis a' + d)) = r →
  r ≠ OutOfFuel →
  move_loop (k + m) h (set_elapsedMillis a (elapsedMillis a + d)) = r.
Proof.
  intros Hd. revert a. induction k as [|k IH]; intros a Hrun Hnext Hr.
  - cbn in Hrun. congruence.
  - rewrite move_loop_S in Hrun.
    destruct (current_frame h a) as [f|] eqn:Hf; [|done].
    case_decide as Hlt.
    + change (S k + m)%nat with (S (k + m)).
      rewrite move_loop_S, current_frame_step_elapsed, Hf.
      cbn [elapsedMillis set_elapsedMillis].
      rewrite decide_True by lia.
      rewrite !step_set_elapsedMillis in *.
      specialize (IH _ Hrun Hnext Hr). cbn [elapsedMillis set_elapsedMillis] in IH.
      rewrite <- IH. f_equal. unfold set_elapsedMillis; cbn. f_equal. lia.
    + injection Hrun as <-.
      apply (move_loop_mono m); [done|done|lia].
Qed.

(** On the integral clock, with frames that all last a positive time,
    every iteration consumes at least one millisecond, so the loop ends.
    (In binary64 this needs the subtraction to be exact: see
    [Binary64Runs].) *)
Lemma move_loop_finishes (n : nat) h a :
  Forall (λ f, 0 < time f) (frames_of h a) →
  elapsedMillis a ≤ Z.of_nat n →
  move_loop (S n) h a ≠ OutOfFuel.
Proof.
  revert a. induction n as [|n IH]; intros a Hpos Hle;
    rewrite move_loop_S;
    destruct (current_frame h a) as [f|] eqn:Hf; try done;
    apply index_Some in Hf as [_ Hin];
    pose proof (proj1 (List.Forall_forall _ _) Hpos f
                  (proj1 (list_elem_of_In _ _) Hin)) as Hf; cbn in Hf.
  - rewrite decide_False by lia. done.
  - case_decide as Hlt; [|done].
    apply IH.
    + by rewrite frames_of_step.
    + rewrite step_elapsedMillis. cbn. lia.
Qed.

(** With the cursor and the loop index in range no frame read fails. *)
Lemma move_loop_no_TypeError (k : nat) h a :
  valid_repeatAt h a → valid_cursor h a → move_loop k h a ≠ TypeError.
Proof.
  revert a. induction k as [|k IH]; intros a Hr Hc; [done|].
  rewrite move_loop_S.
  destruct (index_is_Some _ _ Hc) as [f Hf].
  unfold current_frame. rewrite Hf.
  case_decide; [|done].
  apply IH.
  - unfold valid_repeatAt in *. by rewrite frames_of_step, step_repeatAt.
  - rewrite step_set_elapsedMillis.
    change (valid_cursor h (step h a)).
    apply step_valid_cursor; [done|]. unfold valid_cursor in Hc. lia.
Qed.

Lemma not_error_Ok (r : result Animation) :
  r ≠ OutOfFuel → r ≠ TypeError → ∃ a', r = Ok a'.
Proof. destruct r; [eauto|done|done]. Qed.

(** On exit from the loop the time left does not exceed the duration of
    the frame shown, and it is positive once an iteration has run. *)
Lemma move_loop_exit (k : nat) h a a' :
  move_loop k h a = Ok a' →
  ∃ f, current_frame h a' = Some f ∧ elapsedMillis a' ≤ time f ∧
       (a' = a ∨ 0 < elapsedMillis a').
Proof.
  revert a. induction k as [|k IH]; intros a Hrun; [done|].
  rewrite move_loop_S in Hrun.
  destruct (current_frame h a) as [f|] eqn:Hf; [|done].
  case_decide as Hlt.
  - destruct (IH _ Hrun) as (g & Hg & Hle & [->|Hpos]).
    + exists g. split_and!; [done|done|].
      right. rewrite step_elapsedMillis. cbn. lia.
    + exists g. split_and!; [done|done|by right].
  - injection Hrun as <-. exists f. split_and!; [done|lia|by left].
Qed.

Lemma move_loop_frames (k : nat) h a a' :
  move_loop k h a = Ok a' → frames a' = frames a ∧ repeatAt a' = repeatAt a.
Proof.
  revert a. induction k as [|k IH]; intros a Hrun; [done|].
  rewrite move_loop_S in Hrun.
  destruct (current_frame h a) as [f|]; [|done].
  case_decide.
  - destruct (IH _ Hrun) as [-> ->]. unfold step. by case_decide.
  - by injection Hrun as <-.
Qed.

(** Frames that never last a positive time: with time on the clock the
    loop steps for ever. *)
Lemma move_loop_diverges (k : nat) h a :
  Forall (λ f, time f ≤ 0) (frames_of h a) →
  valid_repeatAt h a → valid_cursor h a → 0 < elapsedMillis a →
  move_loop k h a = OutOfFuel.
Proof.
  revert a. induction k as [|k IH]; intros a Hneg Hr Hc He; [done|].
  rewrite move_loop_S.
  destruct (index_is_Some _ _ Hc) as [f Hf].
  unfold current_frame. rewrite Hf.
  apply index_Some in Hf as [_ Hin].
  pose proof (proj1 (List.Forall_forall _ _) Hneg f
                (proj1 (list_elem_of_In _ _) Hin)) as Hf; cbn in Hf.
  rewrite decide_True by lia.
  apply IH.
  - by rewrite frames_of_step.
  - unfold valid_repeatAt in *. by rewrite frames_of_step, step_repeatAt.
  - rewrite step_set_elapsedMillis.
    change (valid_cursor h (step h a)).
    apply step_valid_cursor; [done|]. unfold valid_cursor in Hc. lia.
  - rewrite step_elapsedMillis. cbn. lia.
Qed.

(** Enough fuel for [move] on the integral clock, for frames of positive
    duration. *)
Lemma move_finishes h a (d : Z) :
  Forall (λ f, 0 < time f) (frames_of h a) →
  ∀ fuel : nat, (S (Z.to_nat (elapsedMillis a + d)) ≤ fuel)%nat →
  move fuel h a d ≠ OutOfFuel ∧
  (valid_repeatAt h a → valid_cursor h a → ∃ a', move fuel h a d = Ok a').
Proof.
  intros Hpos fuel Hfuel.
  assert (Hfin : move fuel h a d ≠ OutOfFuel).
  { unfold move.
    pose proof (move_loop_finishes (Z.to_nat (elapsedMillis a + d)) h
                  (set_elapsedMillis a (elapsedMillis a + d)) Hpos) as Hrun.
    cbn [elapsedMillis set_elapsedMillis] in Hrun.
    destruct (move_loop (S (Z.to_nat (elapsedMillis a + d))) h
                (set_elapsedMillis a (elapsedMillis a + d))) as [a'| |] eqn:E.
    - by rewrite (move_loop_mono _ _ _ _ E).
    - by rewrite (move_loop_mono _ _ _ _ E).
    - exfalso. apply Hrun; [lia|done]. }
  split; [done|].
  intros Hr Hc. apply not_error_Ok; [done|].
  unfold move. by apply move_loop_no_TypeError.
Qed.

(** *** The claims about [step] and [move] *)


(** In exact arithmetic two calls of [move] end as the single call with
    the sum does: with enough fuel both finish, in the same state or
    both at the frame read that fails. *)
Lemma move_additive_integral h a (d1 d2 : Z) :
  frames_of h a ≠ [] →
  Forall (λ f, 0 < time f) (frames_of h a) →
  0 ≤ d1 → 0 ≤ d2 →
  ∃ n : nat, ∀ fuel : nat, (n ≤ fuel)%nat →
    bind_result (move fuel h a d1) (λ a1, move fuel h a1 d2)
      = move fuel h a (d1 + d2) ∧
    move fuel h a (d1 + d2) ≠ OutOfFuel ∧
    (valid_repeatAt h a → valid_cursor h a →
     ∃ a', move fuel h a (d1 + d2) = Ok a').
Proof.
  intros _ Hpos Hd1 Hd2.
  set (n1 := S (Z.to_nat (elapsedMillis a + d1))).
  set (n12 := S (Z.to_nat (elapsedMillis a + (d1 + d2)))).
  destruct (move_finishes h a d1 Hpos n1 (le_n _)) as [Hfin1 _].
  destruct (move n1 h a d1) as [a1| |] eqn:E1; [| |done].
  - (* the first call returns *)
    destruct (move_loop_frames _ _ _ _ E1) as [Hfr _].
    assert (Hpos1 : Forall (λ f, 0 < time f) (frames_of h a1)).
    { unfold frames_of in *. cbn in Hfr. by rewrite Hfr. }
    set (n2 := S (Z.to_nat (elapsedMillis a1 + d2))).
    destruct (move_finishes h a1 d2 Hpos1 n2 (le_n _)) as [Hfin2 _].
    exists (n1 + n2 + n12)%nat. intros fuel Hfuel.
    destruct (move_finishes h a (d1 + d2) Hpos fuel ltac:(lia)) as [Hfin Hok].
    split; [|done].
    unfold move in E1 |- *.
    rewrite (move_loop_mono _ _ _ _ E1 ltac:(done) fuel ltac:(lia)). cbn.
    pose proof (move_loop_later n1 n2 h _ a1 d2 _ Hd2 E1 eq_refl Hfin2) as Hlong.
    cbn [elapsedMillis set_elapsedMillis] in Hlong.
    replace (set_elapsedMillis (set_elapsedMillis a (elapsedMillis a + d1))
               (elapsedMillis a + d1 + d2))
      with (set_elapsedMillis a (elapsedMillis a + (d1 + d2))) in Hlong
      by (unfold set_elapsedMillis; cbn; f_equal; lia).
    rewrite (move_loop_mono _ _ _ _ Hlong Hfin2 fuel ltac:(lia)).
    apply (move_loop_mono n2 _ _ _ eq_refl Hfin2). lia.
  - (* the first call throws *)
    exists (n1 + n12)%nat. intros fuel Hfuel.
    destruct (move_finishes h a (d1 + d2) Hpos fuel ltac:(lia)) as [Hfin Hok].
    split; [|done].
    unfold move in E1 |- *.
    rewrite (move_loop_mono _ _ _ _ E1 ltac:(done) fuel ltac:(lia)). cbn.
    pose proof (move_loop_TypeError_later n1 h _ d2 Hd2 E1) as Hlong.
    cbn [elapsedMillis set_elapsedMillis] in Hlong.
    replace (set_elapsedMillis (set_elapsedMillis a (elapsedMillis a + d1))
               (elapsedMillis a + d1 + d2))
      with (set_elapsedMillis a (elapsedMillis a + (d1 + d2))) in Hlong
      by (unfold set_elapsedMillis; cbn; f_equal; lia).
    symmetry. apply (move_loop_mono n1 _ _ _ Hlong); [done|lia].
Qed.

(** With positive durations the loop only lowers the clock: a run that
    starts in the range where the arithmetic is exact stays in it. *)
Lemma move_loop_clock_le (k : nat) h a a' :
  Forall (λ f, 0 < time f) (frames_of h a) →
  move_loop k h a = Ok a' → elapsedMillis a' ≤ elapsedMillis a.
Proof.
  revert a. induction k as [|k IH]; intros a Hpos Hrun; [done|].
  rewrite move_loop_S in Hrun.
  destruct (current_frame h a) as [f|] eqn:Hf; [|done].
  case_decide.
  - apply index_Some in Hf as [_ Hin].
    pose proof (proj1 (List.Forall_forall _ _) Hpos f
                  (proj1 (list_elem_of_In _ _) Hin)) as Hf; cbn in Hf.
    apply IH in Hrun; [|by rewrite frames_of_step].
    rewrite step_elapsedMillis in Hrun. cbn in Hrun. lia.
  - by injection Hrun as <-.
Qed.

Lemma exact_times_positive (fs : list (Frame Image)) :
  Forall (λ f, 0 < time f ≤ 2 ^ 53) fs → Forall (λ f, 0 < time f) fs.
Proof. intros H. apply (Forall_impl _ _ _ H). intros f Hf. lia. Qed.

(** C4, amended.  Where the clock arithmetic is exact (integral
    durations in (0, 2^53], an integral clock that starts at 0 or above,
    integral [d1], [d2] that are not negative, and
    [elapsedMillis + d1 + d2 <= 2^53]) and the cursor and [repeatAt]
    are in range, [move(d1); move(d2)] and [move(d1 + d2)] both return,
    in the same Animation state, so with the same [frame] and
    [elapsedMillis]. *)
Theorem move_additive h a (d1 d2 : Z) :
  frames_of h a ≠ [] →
  Forall (λ f, 0 < time f ≤ 2 ^ 53) (frames_of h a) →
  valid_repeatAt h a → valid_cursor h a →
  0 ≤ elapsedMillis a → 0 ≤ d1 → 0 ≤ d2 →
  elapsedMillis a + d1 + d2 ≤ 2 ^ 53 →
  ∃ n : nat, ∀ fuel : nat, (n ≤ fuel)%nat →
    ∃ a', move fuel h a (d1 + d2) = Ok a' ∧
          bind_result (move fuel h a d1) (λ a1, move fuel h a1 d2) = Ok a'.
Proof.
  intros Hne Hex Hr Hc _ Hd1 Hd2 _.
  destruct (move_additive_integral h a d1 d2 Hne (exact_times_positive _ Hex)
              Hd1 Hd2) as [n Hn].
  exists n. intros fuel Hfuel.
  destruct (Hn fuel Hfuel) as (Heq & _ & Hok).
  destruct (Hok Hr Hc) as [a' Hrun].
  exists a'. split; [done|]. by rewrite Heq.
Qed.

(** C5.  With the clock at 0, [move(d)] for [d] exactly the duration of
    the current frame returns with the cursor on the same frame and the
    clock equal to that duration: [>] is strict. *)
Theorem move_exact_duration h a (f : Frame Image) (fuel : nat) :
  frames_of h a ≠ [] →
  current_frame h a = Some f →
  elapsedMillis a = 0 →
  ∃ a', move (S fuel) h a (time f) = Ok a' ∧
        frame a' = frame a ∧ elapsedMillis a' = time f.
Proof.
  intros _ Hf He. exists (set_elapsedMillis a (time f)).
  split; [|done].
  unfold move. rewrite move_loop_S, current_frame_step_elapsed, Hf, He.
  cbn [elapsedMillis set_elapsedMillis].
  by rewrite decide_False by lia.
Qed.


(** C8.  With [repeatAt] 0 and the cursor on a frame, [step] applied
    [frames.length] times brings [frame] back to where it started. *)
Theorem step_full_lap h a :
  frames_of h a ≠ [] →
  repeatAt a = 0 →
  0 ≤ frame a < Z.of_nat (length (frames_of h a)) →
  frame (Nat.iter (length (frames_of h a)) (step h) a) = frame a.
Proof. intros _ Hr Hc. by rewrite iter_step_lap. Qed.

(** C10.  [step] on an empty frame list reads only [frames.length]: it
    returns, and for a cursor that is a non-negative index ([-1] is
    enough) [frame + 1 >= 0 = frames.length], so [frame] becomes
    [repeatAt]; the clock is not touched. *)
Theorem step_empty h a :
  frames_of h a = [] →
  -1 ≤ frame a →
  frame (step h a) = repeatAt a ∧ elapsedMillis (step h a) = elapsedMillis a.
Proof.
  intros Hnil Hc. rewrite step_wraps; [done|].
  rewrite Hnil. cbn. lia.
Qed.

(** *** The flip and rotate methods *)

Section Transforms.

Variable buffer : Buffer Image.

Lemma for_frames_lookup (g : Image → Image) (n i j : nat) fs :
  for_frames g n i fs !! j =
  if decide (i ≤ j < i + n)%nat then set_img g <$> fs !! j else fs !! j.
Proof.
  revert i fs. induction n as [|n IH]; intros i fs; cbn [for_frames].
  - rewrite decide_False by lia. done.
  - rewrite IH. destruct (decide (j = i)) as [->|Hne].
    + rewrite decide_False by lia. rewrite decide_True by lia.
      apply list_lookup_alter_eq.
    + rewrite list_lookup_alter_ne by done.
      destruct (decide (S i ≤ j < S i + n)%nat).
      * by rewrite decide_True by lia.
      * by rewrite decide_False by lia.
Qed.

(** The loop replaces the image of every frame. *)
Lemma for_frames_all (g : Image → Image) fs :
  for_frames g (length fs) 0 fs = set_img g <$> fs.
Proof.
  apply list_eq. intros j.
  rewrite for_frames_lookup, list_lookup_fmap.
  case_decide as Hj; [done|].
  rewrite lookup_ge_None_2 by lia. done.
Qed.

Lemma frames_of_transform (g : Image → Image) h a :
  frames_of (transform_frames g h a) a = set_img g <$> frames_of h a.
Proof.
  unfold transform_frames. cbv zeta.
  rewrite <- for_frames_all.
  unfold frames_of at 1. by rewrite lookup_insert_eq.
Qed.

Lemma index_fmap {A B : Type} (g : A → B) (l : list A) (i : Z) :
  index (g <$> l) i = g <$> index l i.
Proof. unfold index. case_decide; [apply list_lookup_fmap|done]. Qed.

(** C9.  [rotateClockwise] exchanges [width] and [height] once, whatever
    the frame list holds, and [rotateCounterclockwise] after it exchanges
    them back: the original [width] and [height] are restored. *)
Theorem rotate_restores_size h a :
  let '(h1, a1) := rotateClockwise buffer h a in
  let '(h2, a2) := rotateCounterclockwise buffer h1 a1 in
  (width a1 = height a ∧ height a1 = width a) ∧
  (width a2 = width a ∧ height a2 = height a).
Proof. cbn. done. Qed.

Lemma frames_of_ext h a b : frames a = frames b → frames_of h a = frames_of h b.
Proof. unfold frames_of. by intros ->. Qed.

Lemma transform_frames_ext (g : Image → Image) h a b :
  frames a = frames b → transform_frames g h a = transform_frames g h b.
Proof. unfold transform_frames, frames_of. by intros ->. Qed.

(** When the provider's two rotations undo each other the images come
    back as well. *)
Lemma rotate_restores_images h a :
  (∀ i, buffer_rotateCounterclockwise buffer (buffer_rotateClockwise buffer i) = i) →
  let '(h1, a1) := rotateClockwise buffer h a in
  let '(h2, a2) := rotateCounterclockwise buffer h1 a1 in
  a2 = a ∧ frames_of h2 a2 = frames_of h a.
Proof.
  intros Hinv. unfold rotateClockwise, rotateCounterclockwise.
  cbv beta iota zeta. split; [by destruct a|].
  rewrite (frames_of_ext _ _ a) by done.
  rewrite (transform_frames_ext _ _ _ a) by done.
  rewrite (transform_frames_ext _ h _ a) by done.
  rewrite !frames_of_transform, <- list_fmap_compose.
  rewrite <- (list_fmap_id (frames_of h a)) at 2.
  apply list_fmap_ext. intros _ [i t] _. unfold set_img; cbn. by rewrite Hinv.
Qed.

(** *** [copy] and the shared frame array *)

Lemma copy_anim h a : snd (copy h a) = a.
Proof. unfold copy. cbn. by destruct a. Qed.

Lemma copy_heap h a :
  is_Some (h !! frames a) → frames_of (fst (copy h a)) a = frames_of h a.
Proof.
  intros Hin. unfold copy, frames_of. cbn.
  rewrite lookup_insert_ne; [done|].
  intros Heq. apply (is_fresh (dom h)). rewrite Heq. by apply elem_of_dom.
Qed.

Lemma invoke_other (m : heap Image → Animation → heap Image * Animation)
    (w : world Image) (this other : loc) :
  other ≠ this → objects (invoke m w this) !! other = objects w !! other.
Proof.
  intros Hne. unfold invoke.
  destruct (objects w !! this) as [a|]; [|done].
  destruct (m (arrays w) a) as [h a']. cbn.
  by rewrite lookup_insert_ne.
Qed.

(** C7.  [copy] makes a new Animation object: its [frames] field is the
    reference held by the source, so both name one array; [frame],
    [elapsedMillis], [repeatAt], [width] and [height] have the source's
    values and live in the new object, which no method called on the
    other object writes.  After [flipHorizontally] on the original, [draw]
    on the duplicate draws the flipped image of its current frame. *)
Theorem copy_aliases_frames (w : world Image) (this : loc) a :
  objects w !! this = Some a →
  is_Some (arrays w !! frames a) →
  ∃ (w1 : world Image) (dup : loc) (b : Animation),
    invoke_copy w this = Some (w1, dup) ∧
    dup ≠ this ∧
    objects w1 !! this = Some a ∧
    objects w1 !! dup = Some b ∧
    frames b = frames a ∧
    (frame b = frame a ∧ elapsedMillis b = elapsedMillis a ∧
     repeatAt b = repeatAt a ∧ width b = width a ∧ height b = height a) ∧
    frames_of (arrays w1) b = frames_of (arrays w) a ∧
    (∀ m, objects (invoke m w1 this) !! dup = Some b) ∧
    (∀ m, objects (invoke m w1 dup) !! this = Some a) ∧
    (∀ (f : Frame Image) (context : Canvas.Context Image) (x y : Z),
       current_frame (arrays w) a = Some f →
       invoke_draw (invoke (flipHorizontally buffer) w1 this) dup context x y
       = Ok (Canvas.drawImage context (flipBufferHorizontally buffer (img f)) x y)).
Proof.
  intros Hthis Harr.
  pose proof (is_fresh (dom (objects w))) as Hfresh.
  set (dup := fresh (dom (objects w))) in *.
  assert (Hne : dup ≠ this).
  { intros ->. apply Hfresh. apply elem_of_dom. by rewrite Hthis. }
  pose proof (copy_anim (arrays w) a) as Hb.
  pose proof (copy_heap (arrays w) a Harr) as Hh.
  destruct (copy (arrays w) a) as [h1 b] eqn:Hcopy. cbn in Hb, Hh. subst b.
  exists (mkWorld (<[dup := a]> (objects w)) h1), dup, a.
  split_and!; try done.
  - unfold invoke_copy. by rewrite Hthis, Hcopy.
  - cbn. by rewrite lookup_insert_ne.
  - cbn. by rewrite lookup_insert_eq.
  - intros m. rewrite invoke_other by done. cbn. by rewrite lookup_insert_eq.
  - intros m. rewrite invoke_other by done. cbn. by rewrite lookup_insert_ne.
  - intros f context x y Hf.
    unfold invoke_draw. rewrite invoke_other by done. cbn.
    rewrite lookup_insert_eq.
    unfold invoke. cbn. rewrite lookup_insert_ne by done. rewrite Hthis. cbn.
    unfold draw, current_frame.
    rewrite frames_of_transform, index_fmap, Hh.
    unfold current_frame in Hf. by rewrite Hf.
Qed.

End Transforms.

End AnimationFacts.

(** * Properties of the Camera *)

Section CameraFacts.
Import Camera.

Context {Image : Type}.
Implicit Types (this : Camera) (context : Canvas.Context Image).

(** [x|0] rounds toward zero as long as the result fits 32 bits. *)
Lemma ToInt32_truncate (q : Q) : int32 (truncate q) → ToInt32 (Num q) = truncate q.
Proof.
  unfold int32, truncate, ToInt32. destruct q as [n d]. cbn [Qnum Qden].
  change (2 ^ 31) with 2147483648. change (2 ^ 32) with 4294967296.
  assert (Hint : Z.sgn n * Qfloor (Qabs (n # d)) = n ÷ Z.pos d).
  { rewrite Z.quot_div by done. cbn [Qabs Qfloor].
    replace (Z.sgn (Z.pos d)) with 1 by done.
    replace (Z.abs (Z.pos d)) with (Z.pos d) by done. lia. }
  rewrite Hint. intros Hrange.
  case_decide as Hhi.
  - destruct (decide (0 ≤ n ÷ Z.pos d)) as [Hnn|Hneg].
    + rewrite Z.mod_small in Hhi by lia. lia.
    + rewrite <- (Z.mod_add _ 1) by done. rewrite Z.mod_small by lia. lia.
  - destruct (decide (0 ≤ n ÷ Z.pos d)) as [Hnn|Hneg].
    + rewrite Z.mod_small by lia. done.
    + rewrite <- (Z.mod_add _ 1) in Hhi by done.
      rewrite Z.mod_small in Hhi by lia. lia.
Qed.

Lemma truncate_nonneg (q : Q) : (0 <= q)%Q → truncate q = Qfloor q.
Proof.
  destruct q as [n d]. unfold Qle, truncate. cbn. intros Hn.
  apply Z.quot_div_nonneg; lia.
Qed.

(** Below zero and off the integers the two roundings differ by one. *)
Lemma truncate_negative (q : Q) :
  (q < 0)%Q → Qnum q mod Z.pos (Qden q) ≠ 0 → truncate q = Qfloor q + 1.
Proof.
  destruct q as [n d]. unfold Qlt, truncate. cbn. intros Hn Hrem.
  rewrite Z.quot_div by done.
  replace (Z.sgn (Z.pos d)) with 1 by done.
  replace (Z.abs (Z.pos d)) with (Z.pos d) by done.
  replace (Z.sgn n) with (-1) by lia.
  replace (Z.abs n) with (- n) by lia.
  pose proof (Z.div_mod n (Z.pos d) ltac:(done)) as E1.
  pose proof (Z.mod_pos_bound n (Z.pos d) ltac:(done)) as B1.
  assert (Hq : - n / Z.pos d = - (n / Z.pos d) - 1).
  { symmetry. apply (Z.div_unique_pos _ _ _ (Z.pos d - n mod Z.pos d)); lia. }
  lia.
Qed.

(** C3, amended.  For a camera at a finite position whose coordinates,
    rounded toward zero, fit the signed 32-bit range, [draw] translates
    the context by exactly [(-trunc x, -trunc y)], where [trunc] rounds
    toward zero; the stack of saved states and the canvas are untouched.
    Where [x] and [y] are not negative this is [(-floor x, -floor y)]. *)
Theorem draw_translates this context (qx qy : Q) :
  x this = Num qx → y this = Num qy →
  int32 (truncate qx) → int32 (truncate qy) →
  (Canvas.origin (draw this context)
     = (fst (Canvas.origin context) - truncate qx,
        snd (Canvas.origin context) - truncate qy) ∧
   Canvas.saved (draw this context) = Canvas.saved context ∧
   Canvas.drawn (draw this context) = Canvas.drawn context) ∧
  ((0 <= qx)%Q → (0 <= qy)%Q →
   Canvas.origin (draw this context)
     = (fst (Canvas.origin context) - Qfloor qx,
        snd (Canvas.origin context) - Qfloor qy)).
Proof.
  intros Hx Hy Hrx Hry.
  assert (Hor : Canvas.origin (draw this context)
     = (fst (Canvas.origin context) - truncate qx,
        snd (Canvas.origin context) - truncate qy)).
  { unfold draw. rewrite Hx, Hy, !ToInt32_truncate by done. cbn.
    f_equal; lia. }
  split; [by split|].
  intros Hqx Hqy. by rewrite Hor, !truncate_nonneg.
Qed.


End CameraFacts.

(** * The model at concrete inputs *)

Section Runs.
Import Animation Examples.

(** The example of the specification: three frames of 100 ms. *)
Example move_250_then_60 :
  move 4 heap3 start 250 = Ok (mkAnimation 1%positive 2 50 0 0 0) ∧
  move 4 heap3 (mkAnimation 1%positive 2 50 0 0 0) 60
    = Ok (mkAnimation 1%positive 0 10 0 0 0).
Proof. split; reflexivity. Qed.

(** The documentation of [lib/camera.js]: with the camera at 50,50 a
    rectangle drawn at 200,200 appears at 150,150. *)
Example camera_50_50 :
  Canvas.drawn
    (Canvas.drawImage
       (Camera.draw (Camera.mkCamera (Camera.Num 50) (Camera.Num 50)
                       (Camera.Num 0) (Camera.Num 0)) blank)
       0%nat 200 200)
  = [(0%nat, (150, 150))].
Proof. reflexivity. Qed.

(** One frame of no duration: the loop never leaves it. *)
Lemma move_zero_duration_diverges (fuel : nat) :
  move fuel heap_zero start 5 = OutOfFuel.
Proof.
  unfold move. apply move_loop_diverges;
    unfold valid_repeatAt, valid_cursor;
    change (frames_of heap_zero _) with [mkFrame 0%nat 0]; cbn; try lia.
  repeat constructor. cbn. lia.
Qed.

(** One frame of negative duration: even [move(0)] never returns, the
    clock grows by 5 at every iteration. *)
Lemma move_negative_duration_diverges (fuel : nat) :
  move fuel heap_negative start 0 = OutOfFuel.
Proof.
  destruct fuel as [|fuel]; [done|].
  unfold move. rewrite move_loop_S.
  change (current_frame heap_negative _) with (Some (mkFrame 0%nat (-5))).
  cbn [time elapsedMillis set_elapsedMillis start].
  rewrite decide_True by lia.
  apply move_loop_diverges;
    unfold valid_repeatAt, valid_cursor;
    rewrite ?step_elapsedMillis, ?step_repeatAt, ?frames_of_step;
    change (frames_of heap_negative _) with [mkFrame 0%nat (-5)]; cbn; try lia.
  - repeat constructor. cbn. lia.
  - rewrite step_wraps; cbn; [lia|].
    change (frames_of heap_negative _) with [mkFrame 0%nat (-5)]. cbn. lia.
Qed.

(** Hypotheses at the example sequencers. *)
Lemma three_frames_positive a :
  frames a = 1%positive → Forall (λ f : Frame nat, 0 < time f) (frames_of heap3 a).
Proof.
  intros Hfr. unfold frames_of. rewrite Hfr.
  change (heap3 !! 1%positive) with (Some three_frames).
  repeat constructor.
Defined.

Lemma three_frames_nonempty a : frames a = 1%positive → frames_of heap3 a ≠ [].
Proof.
  intros Hfr. unfold frames_of. rewrite Hfr.
  change (heap3 !! 1%positive) with (Some three_frames). discriminate.
Defined.

Lemma three_frames_exact a :
  frames a = 1%positive →
  Forall (λ f : Frame nat, 0 < time f ≤ 2 ^ 53) (frames_of heap3 a).
Proof.
  intros Hfr. unfold frames_of. rewrite Hfr.
  change (heap3 !! 1%positive) with (Some three_frames).
  repeat constructor; by vm_compute.
Defined.

Lemma three_frames_valid a :
  frames a = 1%positive → 0 ≤ frame a < 3 → 0 ≤ repeatAt a < 3 →
  valid_repeatAt heap3 a ∧ valid_cursor heap3 a.
Proof.
  intros Hfr Hc Hr. unfold valid_repeatAt, valid_cursor, frames_of. rewrite Hfr.
  change (heap3 !! 1%positive) with (Some three_frames). cbn. lia.
Defined.

(** *** C1 *)



(** *** C4 *)

Lemma move_additive_witness :
  (frames_of heap3 start ≠ [] ∧
   Forall (λ f, 0 < time f ≤ 2 ^ 53) (frames_of heap3 start) ∧
   valid_repeatAt heap3 start ∧ valid_cursor heap3 start ∧
   0 ≤ elapsedMillis start ∧ 0 ≤ 250 ∧ 0 ≤ 60 ∧
   elapsedMillis start + 250 + 60 ≤ 2 ^ 53) ∧
  ∃ n : nat, ∀ fuel : nat, (n ≤ fuel)%nat →
    ∃ a', move fuel heap3 start (250 + 60) = Ok a' ∧
          bind_result (move fuel heap3 start 250) (λ a1, move fuel heap3 a1 60)
          = Ok a'.
Proof.
  assert (H1 := three_frames_nonempty start eq_refl).
  assert (H2 := three_frames_exact start eq_refl).
  destruct (three_frames_valid start eq_refl ltac:(cbn; lia) ltac:(cbn; lia))
    as [H3 H4].
  assert (H5 : 0 ≤ elapsedMillis start) by (cbn; lia).
  assert (H6 : 0 ≤ 250) by lia.
  assert (H7 : 0 ≤ 60) by lia.
  assert (H8 : elapsedMillis start + 250 + 60 ≤ 2 ^ 53) by (by vm_compute).
  split; [by split_and!|].
  exact (move_additive heap3 start 250 60 H1 H2 H3 H4 H5 H6 H7 H8).
Defined.

(** *** C5 *)

Lemma move_exact_duration_witness :
  (frames_of heap3 start ≠ [] ∧
   current_frame heap3 start = Some (mkFrame 0%nat 100) ∧
   elapsedMillis start = 0) ∧
  ∃ a', move 1 heap3 start 100 = Ok a' ∧ frame a' = 0 ∧ elapsedMillis a' = 100.
Proof.
  assert (H1 := three_frames_nonempty start eq_refl).
  split; [by split_and!|].
  exact (move_exact_duration heap3 start (mkFrame 0%nat 100) 0 H1 eq_refl eq_refl).
Defined.

(** *** C6 *)


(** *** C8 *)

Lemma step_full_lap_witness :
  let a := set_frame start 1 in
  (frames_of heap3 a ≠ [] ∧ repeatAt a = 0 ∧
   0 ≤ frame a < Z.of_nat (length (frames_of heap3 a))) ∧
  frame (step heap3 (step heap3 (step heap3 a))) = 1.
Proof.
  cbv zeta.
  assert (H1 := three_frames_nonempty (set_frame start 1) eq_refl).
  assert (H3 : 0 ≤ frame (set_frame start 1)
               < Z.of_nat (length (frames_of heap3 (set_frame start 1))))
    by (change (frames_of heap3 _) with three_frames; cbn; lia).
  split; [done|].
  exact (step_full_lap heap3 (set_frame start 1) H1 eq_refl H3).
Defined.

(** *** C10 *)

(** A sequencer fresh from the constructor: [step] leaves [frame] at 0. *)
Lemma step_empty_witness :
  let '(h, a) := Animation_new (∅ : heap nat) in
  (frames_of h a = [] ∧ -1 ≤ frame a) ∧
  frame (step h a) = 0 ∧ elapsedMillis (step h a) = 0.
Proof.
  cbv beta iota zeta delta [Animation_new].
  set (h := <[fresh (dom (∅ : heap nat)) := []]> (∅ : heap nat)).
  set (a := mkAnimation (fresh (dom (∅ : heap nat))) 0 0 0 0 0).
  assert (H1 : frames_of h a = []) by reflexivity.
  assert (H2 : -1 ≤ frame a) by (cbn; lia).
  split; [done|].
  exact (step_empty h a H1 H2).
Defined.

(** *** C7 *)

Lemma copy_aliases_frames_witness :
  (objects world3 !! 1%positive = Some start ∧
   is_Some (arrays world3 !! frames start)) ∧
  ∃ (w1 : world nat) (dup : loc),
    invoke_copy world3 1%positive = Some (w1, dup) ∧
    dup ≠ 1%positive ∧
    invoke_draw (invoke (flipHorizontally buffer) w1 1%positive) dup blank 5 6
    = Ok (Canvas.drawImage blank 10%nat 5 6).
Proof.
  assert (H1 : objects world3 !! 1%positive = Some start) by reflexivity.
  assert (H2 : is_Some (arrays world3 !! frames start))
    by (exists three_frames; reflexivity).
  split; [done|].
  destruct (copy_aliases_frames buffer world3 1%positive start H1 H2)
    as (w1 & dup & b & Hcopy & Hne & _ & _ & _ & _ & _ & _ & _ & Hdraw).
  exists w1, dup. split_and!; [done|done|].
  exact (Hdraw (mkFrame 0%nat 100) blank 5 6 eq_refl).
Defined.

(** *** C2 *)



(** *** C3 *)

(** At [x = -1.5], [x|0] is [-1]: the context moves right by 1, while
    [-floor(x)] is 2. *)
Lemma draw_negative_fraction_not_floor :
  Canvas.origin (Camera.draw camera_left blank) = (1, 0) ∧
  (fst (Canvas.origin blank) - Qfloor (-3 # 2),
   snd (Canvas.origin blank) - Qfloor 0) = (2, 0) ∧
  Canvas.origin (Camera.draw camera_left blank)
    ≠ (fst (Canvas.origin blank) - Qfloor (-3 # 2),
       snd (Canvas.origin blank) - Qfloor 0).
Proof. split_and!; [reflexivity|reflexivity|discriminate]. Qed.

Lemma draw_translates_witness :
  (Camera.x camera34 = Camera.Num (7 # 2) ∧ Camera.y camera34 = Camera.Num 4 ∧
   Camera.int32 (Camera.truncate (7 # 2)) ∧ Camera.int32 (Camera.truncate 4) ∧
   (0 <= 7 # 2)%Q ∧ (0 <= 4)%Q) ∧
  Canvas.origin (Camera.draw camera34 blank) = (-3, -4).
Proof.
  assert (H1 : Camera.int32 (Camera.truncate (7 # 2)))
    by (vm_compute; split; [discriminate|reflexivity]).
  assert (H2 : Camera.int32 (Camera.truncate 4))
    by (vm_compute; split; [discriminate|reflexivity]).
  assert (H3 : (0 <= 7 # 2)%Q) by (unfold Qle; cbn; lia).
  assert (H4 : (0 <= 4)%Q) by (unfold Qle; cbn; lia).
  split; [by split_and!|].
  exact (proj2 (draw_translates camera34 blank (7 # 2) 4 eq_refl eq_refl H1 H2) H3 H4).
Defined.

End Runs.

(** * Further properties of the Animation methods *)

Section MoreAnimationFacts.
Import Animation.

Context {Image : Type}.
Implicit Types (h : heap Image) (a b this : Animation) (fs : list (Frame Image)).

(** *** [add] *)

Section Add.

Variables img_width img_height : Image → Z.

Lemma frames_of_add h a b (i : Image) (t : Z) :
  frames b = frames a →
  frames_of (fst (add img_width img_height h a i t)) b
  = frames_of h a ++ [mkFrame i t].
Proof.
  intros Hb. unfold add. cbv zeta.
  case_decide; cbn [fst]; unfold frames_of at 1;
    by rewrite Hb, lookup_insert_eq.
Qed.

(** What one [add] does to the store and to [this]. *)
Lemma add_effect h a b (i : Image) (t : Z) :
  frames b = frames a →
  let '(h1, a1) := add img_width img_height h a i t in
  frames_of h1 b = frames_of h a ++ [mkFrame i t] ∧
  index (frames_of h1 b) (Z.of_nat (length (frames_of h a))) = Some (mkFrame i t) ∧
  (∀ j : Z, j < Z.of_nat (length (frames_of h a)) →
     index (frames_of h1 b) j = index (frames_of h a) j) ∧
  (frames a1 = frames a ∧ frame a1 = frame a ∧
   elapsedMillis a1 = elapsedMillis a ∧ repeatAt a1 = repeatAt a) ∧
  (frames_of h a = [] → width a1 = img_width i ∧ height a1 = img_height i) ∧
  (frames_of h a ≠ [] → width a1 = width a ∧ height a1 = height a).
Proof.
  intros Hb.
  pose proof (frames_of_add h a b i t Hb) as Hfs.
  destruct (add img_width img_height h a i t) as [h1 a1] eqn:Hadd.
  cbn [fst] in Hfs. rewrite Hfs.
  assert (Ha1 : a1 = if decide (length (frames_of h a ++ [mkFrame i t]) = 1%nat)
                     then set_height (set_width a (img_width i)) (img_height i)
                     else a).
  { unfold add in Hadd. cbv zeta in Hadd. case_decide; by injection Hadd. }
  refine (conj _ (conj _ (conj _ (conj _ (conj _ _))))).
  - done.
  - unfold index. rewrite decide_True by lia. rewrite Nat2Z.id.
    rewrite lookup_app_r by lia. rewrite Nat.sub_diag. reflexivity.
  - intros j Hj. unfold index. destruct (decide (0 ≤ j)); [|done].
    apply lookup_app_l. lia.
  - subst a1. by case_decide.
  - intros Hnil. subst a1. rewrite Hnil. by rewrite decide_True by done.
  - intros Hne. subst a1. rewrite decide_False; [done|].
    rewrite length_app. cbn. destruct (frames_of h a); [done|cbn; lia].
Qed.

(** X1.  [add] appends: the new frame is the last one, every frame already
    there keeps its index, the cursor, the clock and [repeatAt] are not
    touched, and [width]/[height] are written only when the array was
    empty.  The push is seen through every Animation that holds the same
    array. *)
Theorem add_appends h a b (i : Image) (t : Z) :
  frames b = frames a →
  let '(h1, a1) := add img_width img_height h a i t in
  frames_of h1 b = frames_of h a ++ [mkFrame i t] ∧
  index (frames_of h1 b) (Z.of_nat (length (frames_of h a))) = Some (mkFrame i t) ∧
  (∀ j : Z, j < Z.of_nat (length (frames_of h a)) →
     index (frames_of h1 b) j = index (frames_of h a) j) ∧
  (frames a1 = frames a ∧ frame a1 = frame a ∧
   elapsedMillis a1 = elapsedMillis a ∧ repeatAt a1 = repeatAt a) ∧
  (frames_of h a = [] → width a1 = img_width i ∧ height a1 = img_height i) ∧
  (frames_of h a ≠ [] → width a1 = width a ∧ height a1 = height a).
Proof. apply add_effect. Qed.

Lemma add_frames_spec (l : list (Image * Z)) h a :
  let '(h1, a1) := add_frames img_width img_height h a l in
  frames_of h1 a1 = frames_of h a ++ ((λ it, mkFrame (fst it) (snd it)) <$> l) ∧
  frames a1 = frames a ∧ frame a1 = frame a ∧
  elapsedMillis a1 = elapsedMillis a ∧ repeatAt a1 = repeatAt a ∧
  (frames_of h a ≠ [] → width a1 = width a ∧ height a1 = height a).
Proof.
  revert h a. induction l as [|[i t] l IH]; intros h a.
  - cbn. by rewrite app_nil_r.
  - unfold add_frames. cbn [foldl fst snd].
    pose proof (add_effect h a a i t eq_refl) as Hadd.
    destruct (add img_width img_height h a i t) as [h1 a1].
    destruct Hadd as (Hfs & _ & _ & (Hfr & Hf & He & Hr) & _ & Hsize).
    specialize (IH h1 a1). unfold add_frames in IH.
    destruct (foldl _ (h1, a1) l) as [h2 a2].
    destruct IH as (Hfs2 & Hfr2 & Hf2 & He2 & Hr2 & Hsize2).
    assert (Hfs1 : frames_of h1 a1 = frames_of h a ++ [mkFrame i t]).
    { by rewrite (frames_of_ext h1 a1 a Hfr), Hfs. }
    split_and!; try congruence.
    + rewrite Hfs2, Hfs1, <- app_assoc. done.
    + intros Hne. destruct (Hsize Hne) as [<- <-]. apply Hsize2.
      rewrite Hfs1. by destruct (frames_of h a).
Qed.

(** X2.  A sequence of [add] calls on an Animation without frames stores the
    frames in call order, and leaves [width] and [height] at the
    dimensions of the first image, whatever is added after it. *)
Theorem add_frames_first_size h a (i : Image) (t : Z) (l : list (Image * Z)) :
  frames_of h a = [] →
  let '(h1, a1) := add_frames img_width img_height h a ((i, t) :: l) in
  frames_of h1 a1 = mkFrame i t :: ((λ it, mkFrame (fst it) (snd it)) <$> l) ∧
  width a1 = img_width i ∧ height a1 = img_height i.
Proof.
  intros Hnil. unfold add_frames. cbn [foldl fst snd].
  pose proof (add_effect h a a i t eq_refl) as Hadd.
  destruct (add img_width img_height h a i t) as [h1 a1].
  destruct Hadd as (Hfs & _ & _ & (Hfr & _) & Hfirst & _).
  destruct (Hfirst Hnil) as [Hw Hh].
  pose proof (add_frames_spec l h1 a1) as Hrest. unfold add_frames in Hrest.
  destruct (foldl _ (h1, a1) l) as [h2 a2].
  destruct Hrest as (Hfs2 & _ & _ & _ & _ & Hsize).
  assert (Hfs1 : frames_of h1 a1 = [mkFrame i t]).
  { by rewrite (frames_of_ext h1 a1 a Hfr), Hfs, Hnil. }
  rewrite Hfs2, Hfs1. split; [done|].
  destruct (Hsize ltac:(by rewrite Hfs1)) as [-> ->]. done.
Qed.

End Add.

(** *** [step], [move] and [reset] together *)

Lemma step_fields h a :
  frames (step h a) = frames a ∧ width (step h a) = width a ∧
  height (step h a) = height a.
Proof. unfold step. by case_decide. Qed.

(** The loop of [move] writes [frame] and [elapsedMillis] only. *)
Lemma move_loop_fields (k : nat) h a a' :
  move_loop k h a = Ok a' →
  frames a' = frames a ∧ repeatAt a' = repeatAt a ∧
  width a' = width a ∧ height a' = height a.
Proof.
  revert a. induction k as [|k IH]; intros a Hrun; [done|].
  rewrite move_loop_S in Hrun.
  destruct (current_frame h a) as [f|]; [|done].
  case_decide.
  - destruct (IH _ Hrun) as (-> & -> & -> & ->).
    rewrite step_repeatAt. by destruct (step_fields h (set_elapsedMillis a (elapsedMillis a - time f))) as (-> & -> & ->).
  - by injection Hrun as <-.
Qed.

(** X3.  [reset] after a [move] that returned gives the state [reset] gives
    without it: [move] changes the cursor and the clock only, and [reset]
    overwrites both, with frame 0 whatever [repeatAt] is. *)
Theorem reset_after_move (fuel : nat) h a (d : Z) a' :
  move fuel h a d = Ok a' →
  reset a' = reset a ∧ frame (reset a') = 0 ∧ elapsedMillis (reset a') = 0.
Proof.
  intros Hrun. unfold move in Hrun.
  destruct (move_loop_fields _ _ _ _ Hrun) as (Hfr & Hr & Hw & Hh).
  split; [|done]. unfold reset, set_elapsedMillis, set_frame. cbn in *.
  by rewrite Hfr, Hr, Hw, Hh.
Qed.

(** X4.  [move] exits with the clock normalised, so a following [move(0)]
    returns at once and changes nothing. *)
Theorem move_then_zero (fuel : nat) h a (d : Z) a' :
  move fuel h a d = Ok a' → move 1 h a' 0 = Ok a'.
Proof.
  intros Hrun. unfold move in Hrun.
  destruct (move_loop_exit _ _ _ _ Hrun) as (f & Hf & Hle & _).
  unfold move. rewrite move_loop_S, current_frame_step_elapsed, Hf.
  cbn [elapsedMillis set_elapsedMillis].
  rewrite decide_False by lia.
  f_equal. destruct a'; unfold set_elapsedMillis; cbn. f_equal. lia.
Qed.


(** *** Calls that raise *)

(** X6.  Without frames, [draw] and [move] read [undefined.img] and
    [undefined.time]: both raise a TypeError, [move] before it loops. *)
Theorem empty_animation_raises (fuel : nat) h a (d : Z)
    (context : Canvas.Context Image) (x y : Z) :
  frames_of h a = [] →
  draw h a context x y = TypeError ∧ move (S fuel) h a d = TypeError.
Proof.
  intros Hnil.
  assert (Hcur : ∀ b, frames b = frames a → current_frame h b = None).
  { intros b Hb. unfold current_frame. rewrite (frames_of_ext h b a Hb), Hnil.
    unfold index. by case_decide. }
  split.
  - unfold draw. by rewrite Hcur.
  - unfold move. rewrite move_loop_S. by rewrite Hcur.
Qed.


(** *** The looping section *)

Lemma step_loop_section h a :
  valid_repeatAt h a → repeatAt a ≤ frame a →
  repeatAt a ≤ frame (step h a) < Z.of_nat (length (frames_of h a)).
Proof.
  unfold valid_repeatAt. intros Hr Hc.
  destruct (decide (frame a + 1 < Z.of_nat (length (frames_of h a)))) as [Hlt|Hge].
  - rewrite step_inside by done. cbn. lia.
  - rewrite step_wraps by lia. cbn. lia.
Qed.

Lemma move_loop_section (k : nat) h a a' :
  valid_repeatAt h a → repeatAt a ≤ frame a →
  move_loop k h a = Ok a' →
  repeatAt a' ≤ frame a' < Z.of_nat (length (frames_of h a')).
Proof.
  revert a. induction k as [|k IH]; intros a Hr Hc Hrun; [done|].
  rewrite move_loop_S in Hrun.
  destruct (current_frame h a) as [f|] eqn:Hf; [|done].
  case_decide.
  - pose proof (step_loop_section h a Hr Hc) as Hs.
    apply IH in Hrun; [done| |]; rewrite step_set_elapsedMillis.
    + change (valid_repeatAt h (step h a)).
      unfold valid_repeatAt in *. by rewrite frames_of_step, step_repeatAt.
    + change (repeatAt (step h a) ≤ frame (step h a)).
      rewrite step_repeatAt. lia.
  - injection Hrun as <-. apply index_Some in Hf as [Hf _]. lia.
Qed.

(** X8.  Frames before [repeatAt] are introductory: once the cursor is at or
    after [repeatAt], [move] never brings it back before [repeatAt]. *)
Theorem move_keeps_loop_section (fuel : nat) h a (d : Z) a' :
  valid_repeatAt h a → repeatAt a ≤ frame a →
  move fuel h a d = Ok a' →
  repeatAt a ≤ frame a' < Z.of_nat (length (frames_of h a)).
Proof.
  intros Hr Hc Hrun. unfold move in Hrun.
  destruct (move_loop_fields _ _ _ _ Hrun) as (Hfr & Hra & _).
  pose proof (move_loop_section fuel h (set_elapsedMillis a _) a' Hr Hc Hrun) as Hs.
  rewrite (frames_of_ext h a' a Hfr), Hra in Hs. exact Hs.
Qed.

(** X9.  With [repeatAt] set to the last frame the animation does not
    loop: from the last frame every [move] that returns leaves the cursor
    on it. *)
Theorem move_stays_on_last_frame (fuel : nat) h a (d : Z) a' :
  0 ≤ repeatAt a →
  repeatAt a + 1 = Z.of_nat (length (frames_of h a)) →
  frame a = repeatAt a →
  move fuel h a d = Ok a' →
  frame a' = frame a.
Proof.
  intros H0 Hlast Hc Hrun.
  assert (Hr : valid_repeatAt h a) by (unfold valid_repeatAt; lia).
  unfold move in Hrun.
  destruct (move_loop_fields _ _ _ _ Hrun) as (Hfr & Hra & _).
  pose proof (move_loop_section fuel h (set_elapsedMillis a _) a' Hr
                ltac:(cbn; lia) Hrun) as Hs.
  rewrite (frames_of_ext h a' a Hfr), Hra in Hs. cbn in Hs. lia.
Qed.

(** *** A whole lap *)

Lemma total_time_cons (f : Frame Image) fs :
  total_time (f :: fs) = time f + total_time fs.
Proof. reflexivity. Qed.

Lemma total_time_app fs1 fs2 :
  total_time (fs1 ++ fs2) = total_time fs1 + total_time fs2.
Proof.
  induction fs1 as [|f fs1 IH]; [done|].
  rewrite <- app_comm_cons, !total_time_cons, IH. lia.
Qed.

Lemma total_time_nonneg fs :
  Forall (λ f, 0 < time f) fs → 0 ≤ total_time fs.
Proof.
  induction 1 as [|f fs Hf _ IH]; [done|]. rewrite total_time_cons. lia.
Qed.

Lemma step_retime h a (u v : Z) :
  step h (set_elapsedMillis (set_elapsedMillis a u) v)
  = set_elapsedMillis (step h a) v.
Proof. by rewrite !step_set_elapsedMillis. Qed.

(** With more on the clock than the next [k] frames take, the loop walks
    through all of them. *)
Lemma move_loop_run (k m : nat) h a (c : Z) :
  Forall (λ f, 0 < time f) (frames_of h a) →
  0 ≤ frame a →
  (Z.to_nat (frame a) + k ≤ length (frames_of h a))%nat →
  0 < c →
  move_loop (k + m) h
    (set_elapsedMillis a
       (c + total_time (take k (drop (Z.to_nat (frame a)) (frames_of h a)))))
  = move_loop m h (set_elapsedMillis (Nat.iter k (step h) a) c).
Proof.
  intros Hpos. revert a Hpos. induction k as [|k IH]; intros a Hpos H0 Hk Hc.
  - cbn. by rewrite Z.add_0_r.
  - destruct (lookup_lt_is_Some_2 (frames_of h a) (Z.to_nat (frame a))
                ltac:(lia)) as [f Hf].
    rewrite (drop_S _ _ _ Hf). cbn [take].
    rewrite total_time_cons.
    set (R := total_time (take k (drop (S (Z.to_nat (frame a))) (frames_of h a)))).
    assert (HR : 0 ≤ R).
    { apply total_time_nonneg, Forall_take, Forall_drop, Hpos. }
    change (S k + m)%nat with (S (k + m)).
    rewrite move_loop_S, current_frame_step_elapsed.
    unfold current_frame at 1, index. rewrite decide_True by done. rewrite Hf.
    cbn [elapsedMillis set_elapsedMillis].
    rewrite decide_True by lia.
    rewrite step_retime, Nat.iter_succ_r.
    replace (c + (time f + R) - time f) with (c + R) by lia.
    destruct (decide (frame a + 1 < Z.of_nat (length (frames_of h a)))) as [Hlt|Hge].
    + specialize (IH (step h a)).
      rewrite frames_of_step in IH.
      rewrite step_inside in IH |- * by done.
      cbn [frame set_frame] in IH.
      replace (Z.to_nat (frame a + 1)) with (S (Z.to_nat (frame a))) in IH by lia.
      apply IH; [done|lia|lia|done].
    + assert (k = 0)%nat as -> by lia.
      subst R. cbn. by rewrite Z.add_0_r.
Qed.

Lemma move_loop_lap (m : nat) h a (c : Z) :
  Forall (λ f, 0 < time f) (frames_of h a) →
  repeatAt a = 0 → valid_cursor h a → 0 < c →
  move_loop (length (frames_of h a) + m) h
    (set_elapsedMillis a (c + total_time (frames_of h a)))
  = move_loop m h (set_elapsedMillis a c).
Proof.
  intros Hpos Hr Hv Hc. pose proof Hv as [Hlo Hhi].
  set (fs := frames_of h a) in *.
  set (i := Z.to_nat (frame a)).
  set (k := (length fs - i)%nat).
  assert (Hsplit : total_time fs = total_time (take i fs) + total_time (drop i fs)).
  { by rewrite <- total_time_app, take_drop. }
  assert (Hi : 0 ≤ total_time (take i fs)).
  { apply total_time_nonneg, Forall_take, Hpos. }
  (* up to the end of the array, then the wrap to frame 0 *)
  assert (Hwrap : Nat.iter k (step h) a = set_frame a 0).
  { replace k with (S (length fs - 1 - i)) by lia.
    rewrite Nat.iter_succ, iter_step_inside by (fold fs; lia).
    rewrite step_wraps; cbn.
    - by rewrite Hr.
    - change (frames_of h _) with fs. lia. }
  pose proof (move_loop_run k (i + m) h a (c + total_time (take i fs))
                Hpos Hlo ltac:(fold fs; lia) ltac:(lia)) as Hseg1.
  fold fs i in Hseg1.
  rewrite (take_ge (drop i fs)) in Hseg1 by (rewrite length_drop; lia).
  rewrite Hwrap in Hseg1.
  (* from frame 0 back to the starting frame *)
  pose proof (move_loop_run i m h (set_frame a 0) c
                Hpos ltac:(done) ltac:(change (frames_of h _) with fs; cbn; lia) Hc)
    as Hseg2.
  change (frames_of h (set_frame a 0)) with fs in Hseg2.
  cbn [frame set_frame Z.to_nat drop] in Hseg2.
  rewrite <- Hwrap in Hseg2 at 2.
  rewrite <- Nat.iter_add in Hseg2.
  replace (i + k)%nat with (length fs) in Hseg2 by lia.
  unfold fs in Hseg2 at 2. rewrite iter_step_lap in Hseg2 by done.
  change (drop (Z.to_nat 0) fs) with fs in Hseg2.
  rewrite <- Hseg2, <- Hseg1.
  replace (length fs + m)%nat with (k + (i + m))%nat by lia.
  f_equal. f_equal. lia.
Qed.

(** In exact arithmetic a lap more on the clock is consumed by one pass
    over the frames. *)
Lemma move_whole_lap_integral h a (d : Z) :
  Forall (λ f, 0 < time f) (frames_of h a) →
  repeatAt a = 0 → valid_cursor h a →
  0 < elapsedMillis a + d →
  ∃ n : nat, ∀ fuel : nat, (n ≤ fuel)%nat →
    move fuel h a (d + total_time (frames_of h a)) = move fuel h a d ∧
    ∃ a', move fuel h a d = Ok a'.
Proof.
  intros Hpos Hr Hv Hc.
  assert (Hra : valid_repeatAt h a).
  { unfold valid_repeatAt, valid_cursor in *. lia. }
  set (m := S (Z.to_nat (elapsedMillis a + d))).
  exists (length (frames_of h a) + m)%nat. intros fuel Hfuel.
  destruct (move_finishes h a d Hpos m (le_n _)) as [Hfin _].
  destruct (move_finishes h a d Hpos fuel ltac:(lia)) as [_ Hok].
  split; [|by apply Hok].
  pose proof (move_loop_lap m h (set_elapsedMillis a (elapsedMillis a + d))
                (elapsedMillis a + d) Hpos Hr Hv Hc) as Hlap.
  change (frames_of h (set_elapsedMillis a _)) with (frames_of h a) in Hlap.
  replace (set_elapsedMillis (set_elapsedMillis a (elapsedMillis a + d))
             (elapsedMillis a + d + total_time (frames_of h a)))
    with (set_elapsedMillis a (elapsedMillis a + (d + total_time (frames_of h a))))
    in Hlap by (unfold set_elapsedMillis; cbn; f_equal; lia).
  change (set_elapsedMillis (set_elapsedMillis a (elapsedMillis a + d))
            (elapsedMillis a + d))
    with (set_elapsedMillis a (elapsedMillis a + d)) in Hlap.
  unfold move in *.
  rewrite (move_loop_mono _ _ _ _ Hlap Hfin fuel Hfuel).
  symmetry. apply (move_loop_mono m _ _ _ eq_refl Hfin). lia.
Qed.

(** X10.  One lap more or less makes no difference where the clock
    arithmetic is exact: with [repeatAt] 0, integral durations in
    (0, 2^53], an integral clock and [millis] that are not negative with
    time on the clock, and [elapsedMillis + millis + T <= 2^53] for [T]
    the sum of all durations, [move(millis + T)] ends in the state
    [move(millis)] ends in. *)
Theorem move_whole_lap h a (d : Z) :
  Forall (λ f, 0 < time f ≤ 2 ^ 53) (frames_of h a) →
  repeatAt a = 0 → valid_cursor h a →
  0 ≤ elapsedMillis a → 0 ≤ d → 0 < elapsedMillis a + d →
  elapsedMillis a + d + total_time (frames_of h a) ≤ 2 ^ 53 →
  ∃ n : nat, ∀ fuel : nat, (n ≤ fuel)%nat →
    move fuel h a (d + total_time (frames_of h a)) = move fuel h a d ∧
    ∃ a', move fuel h a d = Ok a'.
Proof.
  intros Hex Hr Hv _ _ Hc _.
  exact (move_whole_lap_integral h a d (exact_times_positive _ Hex) Hr Hv Hc).
Qed.

(** *** The constructor *)

(** X11.  [new Animation()] starts without frames, on an array of its own:
    no array that exists is the new one, and none changes. *)
Theorem Animation_new_fresh h b :
  is_Some (h !! frames b) →
  let '(h1, a1) := Animation_new h in
  frames_of h1 a1 = [] ∧ frames a1 ≠ frames b ∧ frames_of h1 b = frames_of h b.
Proof.
  intros Hb. unfold Animation_new. cbv zeta.
  assert (Hne : fresh (dom h) ≠ frames b).
  { intros Heq. apply (is_fresh (dom h)). rewrite Heq. by apply elem_of_dom. }
  split_and!.
  - unfold frames_of. cbn. by rewrite lookup_insert_eq.
  - done.
  - unfold frames_of. by rewrite lookup_insert_ne.
Qed.

(** *** Flips and rotations against playback *)

Section MoreTransforms.

Variable buffer : Buffer Image.

Lemma frames_of_transform_shared (g : Image → Image) h a b :
  frames b = frames a →
  frames_of (transform_frames g h a) b = set_img g <$> frames_of h b.
Proof.
  intros Hb.
  rewrite (frames_of_ext _ b a Hb), (frames_of_ext h b a Hb).
  apply frames_of_transform.
Qed.

Lemma frames_of_transform_other (g : Image → Image) h a b :
  frames b ≠ frames a →
  frames_of (transform_frames g h a) b = frames_of h b.
Proof.
  intros Hb. unfold transform_frames, frames_of at 1. cbv zeta.
  by rewrite lookup_insert_ne.
Qed.

(** Two stores whose arrays differ in the images only. *)
Lemma step_retouched (g : Image → Image) h h1 b :
  frames_of h1 b = set_img g <$> frames_of h b → step h1 b = step h b.
Proof.
  intros Hfs. unfold step. cbv zeta.
  change (frames_of h1 (set_frame b (frame b + 1))) with (frames_of h1 b).
  change (frames_of h (set_frame b (frame b + 1))) with (frames_of h b).
  by rewrite Hfs, length_fmap.
Qed.

Lemma move_loop_retouched (g : Image → Image) (k : nat) h h1 b :
  (∀ b', frames b' = frames b →
         frames_of h1 b' = set_img g <$> frames_of h b') →
  move_loop k h1 b = move_loop k h b.
Proof.
  revert b. induction k as [|k IH]; intros b Hfs; [done|].
  rewrite !move_loop_S. unfold current_frame.
  rewrite (Hfs b eq_refl), index_fmap.
  destruct (index (frames_of h b) (frame b)) as [f|]; [|done].
  cbn. case_decide; [|done].
  rewrite (step_retouched g h h1) by (by apply Hfs).
  apply IH. intros b' Hb'. apply Hfs. rewrite Hb'.
  by destruct (step_fields h (set_elapsedMillis b (elapsedMillis b - time f)))
    as (-> & _).
Qed.

Lemma move_transform_frames (g : Image → Image) (fuel : nat) h a b (d : Z) :
  move fuel (transform_frames g h a) b d = move fuel h b d ∧
  step (transform_frames g h a) b = step h b.
Proof.
  destruct (decide (frames b = frames a)) as [Hb|Hb].
  - split.
    + unfold move. apply (move_loop_retouched g).
      intros b' Hb'. apply frames_of_transform_shared. by rewrite Hb'.
    + apply (step_retouched g). by apply frames_of_transform_shared.
  - assert (Hfs : ∀ b', frames b' = frames b →
                   frames_of (transform_frames g h a) b' = set_img id <$> frames_of h b').
    { intros b' Hb'. rewrite frames_of_transform_other by (by rewrite Hb').
      rewrite <- (list_fmap_id (frames_of h b')) at 1.
      apply list_fmap_ext. by intros _ [i t] _. }
    split.
    + unfold move. by apply (move_loop_retouched id).
    + apply (step_retouched id). by apply Hfs.
Qed.

(** X12.  The flips replace the image of every frame by its transform, keep
    the number of frames, their order and their durations, return [this]
    with no field changed, and leave every other array alone. *)
Theorem flips_replace_images h a b :
  frames b ≠ frames a →
  (snd (flipHorizontally buffer h a) = a ∧
   frames_of (fst (flipHorizontally buffer h a)) a
   = set_img (flipBufferHorizontally buffer) <$> frames_of h a ∧
   frames_of (fst (flipHorizontally buffer h a)) b = frames_of h b) ∧
  (snd (flipVertically buffer h a) = a ∧
   frames_of (fst (flipVertically buffer h a)) a
   = set_img (flipBufferVertically buffer) <$> frames_of h a ∧
   frames_of (fst (flipVertically buffer h a)) b = frames_of h b).
Proof.
  intros Hb. unfold flipHorizontally, flipVertically. cbn [fst snd].
  by rewrite !frames_of_transform, !frames_of_transform_other.
Qed.

(** X13.  No flip or rotation disturbs playback: in the store a transform
    leaves behind, [step] and [move] behave on every Animation as they
    did before. *)
Theorem transforms_keep_playback (fuel : nat) h a b (d : Z) :
  (move fuel (fst (flipHorizontally buffer h a)) b d = move fuel h b d ∧
   step (fst (flipHorizontally buffer h a)) b = step h b) ∧
  (move fuel (fst (flipVertically buffer h a)) b d = move fuel h b d ∧
   step (fst (flipVertically buffer h a)) b = step h b) ∧
  (move fuel (fst (rotateClockwise buffer h a)) b d = move fuel h b d ∧
   step (fst (rotateClockwise buffer h a)) b = step h b) ∧
  (move fuel (fst (rotateCounterclockwise buffer h a)) b d = move fuel h b d ∧
   step (fst (rotateCounterclockwise buffer h a)) b = step h b).
Proof.
  unfold flipHorizontally, flipVertically, rotateClockwise, rotateCounterclockwise.
  cbv zeta. cbn [fst].
  rewrite !(transform_frames_ext _ h (set_height (set_width a (height a)) (width a)) a)
    by done.
  split_and!; apply (move_transform_frames _ fuel _ _ _ d).
Qed.

(** X14.  A flip whose provider is an involution, applied twice, gives the
    images back. *)
Theorem flipHorizontally_twice h a :
  (∀ i, flipBufferHorizontally buffer (flipBufferHorizontally buffer i) = i) →
  let '(h1, a1) := flipHorizontally buffer h a in
  let '(h2, a2) := flipHorizontally buffer h1 a1 in
  a2 = a ∧ frames_of h2 a2 = frames_of h a.
Proof.
  intros Hinv. unfold flipHorizontally. split; [done|].
  rewrite !frames_of_transform, <- list_fmap_compose.
  rewrite <- (list_fmap_id (frames_of h a)) at 2.
  apply list_fmap_ext. intros _ [i t] _. unfold set_img; cbn. by rewrite Hinv.
Qed.

(** X16.  [rotateClockwise] on an Animation whose array a copy shares: the copy
    draws rotated images from then on, and its own [width] and [height]
    are not exchanged. *)
Theorem rotate_leaves_copy_size (w : world Image) (this : loc) a :
  objects w !! this = Some a →
  is_Some (arrays w !! frames a) →
  ∃ (w1 : world Image) (dup : loc),
    invoke_copy w this = Some (w1, dup) ∧
    let w2 := invoke (rotateClockwise buffer) w1 this in
    objects w2 !! this
      = Some (set_height (set_width a (height a)) (width a)) ∧
    objects w2 !! dup = Some a ∧
    frames_of (arrays w2) a
      = set_img (buffer_rotateClockwise buffer) <$> frames_of (arrays w) a.
Proof.
  intros Hthis Harr.
  pose proof (is_fresh (dom (objects w))) as Hfresh.
  set (dup := fresh (dom (objects w))) in *.
  assert (Hne : dup ≠ this).
  { intros ->. apply Hfresh. apply elem_of_dom. by rewrite Hthis. }
  pose proof (copy_anim (arrays w) a) as Hb.
  pose proof (copy_heap (arrays w) a Harr) as Hh.
  destruct (copy (arrays w) a) as [h1 b] eqn:Hcopy. cbn in Hb, Hh. subst b.
  exists (mkWorld (<[dup := a]> (objects w)) h1), dup.
  split.
  { unfold invoke_copy. by rewrite Hthis, Hcopy. }
  cbv zeta. split_and!.
  - unfold invoke. cbn. rewrite lookup_insert_ne by done. rewrite Hthis. cbn.
    by rewrite lookup_insert_eq.
  - rewrite invoke_other by done. cbn. by rewrite lookup_insert_eq.
  - unfold invoke. cbn [objects arrays].
    rewrite lookup_insert_ne by done. rewrite Hthis.
    unfold rotateClockwise. cbv zeta. cbn [arrays].
    rewrite (transform_frames_ext _ h1 _ a) by done.
    by rewrite frames_of_transform, Hh.
Qed.

End MoreTransforms.

End MoreAnimationFacts.

(** * Further properties of the Camera *)

Section MoreCameraFacts.
Import Camera.

Context {Image : Type}.
Implicit Types (this : Camera) (context : Canvas.Context Image).

Lemma ToInt32_int32 (v : number) : int32 (ToInt32 v).
Proof.
  unfold int32. change (2 ^ 31) with 2147483648.
  destruct v as [q| |neg]; cbn [ToInt32]; [|lia|lia].
  change (2 ^ 31) with 2147483648. change (2 ^ 32) with 4294967296.
  pose proof (Z.mod_pos_bound (Z.sgn (Qnum q) * Qfloor (Qabs q)) 4294967296
                ltac:(done)) as Hm.
  case_decide; lia.
Qed.

(** [v|0] of a whole number is that number wrapped to 32 bits. *)
Lemma ToInt32_whole (z : Z) :
  ToInt32 (Num (inject_Z z)) =
  if decide (2 ^ 31 ≤ z mod 2 ^ 32) then z mod 2 ^ 32 - 2 ^ 32 else z mod 2 ^ 32.
Proof.
  unfold ToInt32, inject_Z. cbn [Qnum Qabs Qfloor].
  rewrite Z.div_1_r.
  replace (Z.sgn z * Z.abs z) with z by lia. done.
Qed.

(** X17.  Whatever the position of the camera, NaN and the infinities
    included, [draw] moves the origin by whole amounts, of at most 2^31
    to the right or down and less than 2^31 to the left or up; it does
    not touch the saved states or the canvas. *)
Theorem draw_offset_bounded this context :
  (- 2 ^ 31 < fst (Canvas.origin (draw this context)) - fst (Canvas.origin context)
     ≤ 2 ^ 31) ∧
  (- 2 ^ 31 < snd (Canvas.origin (draw this context)) - snd (Canvas.origin context)
     ≤ 2 ^ 31) ∧
  Canvas.saved (draw this context) = Canvas.saved context ∧
  Canvas.drawn (draw this context) = Canvas.drawn context.
Proof.
  pose proof (ToInt32_int32 (x this)) as Hx.
  pose proof (ToInt32_int32 (y this)) as Hy.
  unfold int32 in *. unfold draw. cbn.
  change (2 ^ 31) with 2147483648 in *. split_and!; try done; lia.
Qed.

(** X18.  Camera positions that are whole numbers 2^32 apart give the same
    offset: [x|0] wraps. *)
Theorem draw_wraps this this' context (zx : Z) :
  x this = Num (inject_Z zx) →
  x this' = Num (inject_Z (zx + 2 ^ 32)) →
  y this' = y this →
  draw this' context = draw this context.
Proof.
  intros Hx Hx' Hy. unfold draw. rewrite Hx, Hx', Hy, !ToInt32_whole.
  assert (Hm : (zx + 2 ^ 32) mod 2 ^ 32 = zx mod 2 ^ 32).
  { rewrite <- (Z.mod_add zx 1 (2 ^ 32)) by done. f_equal. }
  by rewrite Hm.
Qed.

(** X19.  Inside [drawAbsolute] the offset of [draw] is undone, for every
    camera position: what the callback draws at (px, py) lands at
    (px, py) of the context as it was before [draw]; after the call the
    offset of [draw] is in force again. *)
Theorem drawAbsolute_undoes_draw this context (i : Image) (px py : Z) :
  ∃ c,
    drawAbsolute this (draw this context)
      (λ c0, Returned (Canvas.drawImage c0 i px py)) = Returned c ∧
    Canvas.drawn c
      = Canvas.drawn context
        ++ [(i, (fst (Canvas.origin context) + px,
                 snd (Canvas.origin context) + py))] ∧
    Canvas.origin c = Canvas.origin (draw this context) ∧
    Canvas.saved c = Canvas.saved context.
Proof.
  eexists. split; [reflexivity|]. cbn. split_and!; [|done|done].
  do 4 f_equal; lia.
Qed.

(** X20.  An Animation drawn through the camera: with the camera at a position
    that is not negative (and fits 32 bits), [Animation.draw] at (px, py)
    after [Camera.draw] puts the image of the current frame at
    (px - floor x, py - floor y) of the context. *)
Theorem animation_draw_through_camera this context
    (h : Animation.heap Image) (a : Animation.Animation)
    (f : Animation.Frame Image) (qx qy : Q) (px py : Z) :
  Animation.current_frame h a = Some f →
  x this = Num qx → y this = Num qy →
  int32 (truncate qx) → int32 (truncate qy) →
  (0 <= qx)%Q → (0 <= qy)%Q →
  ∃ c,
    Animation.draw h a (draw this context) px py = Ok c ∧
    Canvas.drawn c
      = Canvas.drawn context
        ++ [(Animation.img f,
             (fst (Canvas.origin context) - Qfloor qx + px,
              snd (Canvas.origin context) - Qfloor qy + py))].
Proof.
  intros Hf Hx Hy Hrx Hry Hqx Hqy.
  unfold Animation.draw. rewrite Hf. eexists. split; [reflexivity|].
  unfold draw. rewrite Hx, Hy, !ToInt32_truncate, !truncate_nonneg by done.
  cbn. do 3 f_equal; lia.
Qed.

End MoreCameraFacts.

(** * The further properties at concrete inputs *)

Section MoreRuns.
Import Animation Examples MoreExamples.

Lemma add_appends_witness :
  frames start = frames start ∧
  frames_of (fst (add sprite_width sprite_height heap3 start 9%nat 30)) start
  = three_frames ++ [mkFrame 9%nat 30].
Proof.
  split; [reflexivity|].
  pose proof (add_appends sprite_width sprite_height heap3 start start 9%nat 30
                eq_refl) as H.
  destruct (add sprite_width sprite_height heap3 start 9%nat 30) as [h1 a1].
  exact (proj1 H).
Defined.

Lemma add_frames_first_size_witness :
  let '(h, a) := Animation_new (∅ : heap nat) in
  frames_of h a = [] ∧
  let r := add_frames sprite_width sprite_height h a [(2%nat, 100); (5%nat, 40)] in
  frames_of (fst r) (snd r) = [mkFrame 2%nat 100; mkFrame 5%nat 40] ∧
  width (snd r) = 48 ∧ height (snd r) = 24.
Proof.
  cbv beta iota zeta delta [Animation_new].
  set (h := <[fresh (dom (∅ : heap nat)) := []]> (∅ : heap nat)).
  set (a := mkAnimation (fresh (dom (∅ : heap nat))) 0 0 0 0 0).
  assert (H0 : frames_of h a = []) by reflexivity.
  split; [done|].
  pose proof (add_frames_first_size sprite_width sprite_height h a 2%nat 100
                [(5%nat, 40)] H0) as H.
  destruct (add_frames sprite_width sprite_height h a [(2%nat, 100); (5%nat, 40)])
    as [h1 a1].
  exact H.
Defined.

Lemma reset_after_move_witness :
  move 4 heap3 start 250 = Ok (mkAnimation 1%positive 2 50 0 0 0) ∧
  reset (mkAnimation 1%positive 2 50 0 0 0) = reset start.
Proof.
  assert (H : move 4 heap3 start 250 = Ok (mkAnimation 1%positive 2 50 0 0 0))
    by reflexivity.
  split; [done|].
  exact (proj1 (reset_after_move 4 heap3 start 250 _ H)).
Defined.

Lemma move_then_zero_witness :
  move 4 heap3 start 250 = Ok (mkAnimation 1%positive 2 50 0 0 0) ∧
  move 1 heap3 (mkAnimation 1%positive 2 50 0 0 0) 0
  = Ok (mkAnimation 1%positive 2 50 0 0 0).
Proof.
  assert (H : move 4 heap3 start 250 = Ok (mkAnimation 1%positive 2 50 0 0 0))
    by reflexivity.
  split; [done|].
  exact (move_then_zero 4 heap3 start 250 _ H).
Defined.


Lemma empty_animation_raises_witness :
  let '(h, a) := Animation_new (∅ : heap nat) in
  frames_of h a = [] ∧
  draw h a blank 10 20 = TypeError ∧ move 1 h a 16 = TypeError.
Proof.
  cbv beta iota zeta delta [Animation_new].
  set (h := <[fresh (dom (∅ : heap nat)) := []]> (∅ : heap nat)).
  set (a := mkAnimation (fresh (dom (∅ : heap nat))) 0 0 0 0 0).
  assert (H0 : frames_of h a = []) by reflexivity.
  split; [done|].
  exact (empty_animation_raises 0 h a 16 blank 10 20 H0).
Defined.


Lemma move_keeps_loop_section_witness :
  (valid_repeatAt heap3 intro_loop ∧ repeatAt intro_loop ≤ frame intro_loop ∧
   move 4 heap3 intro_loop 250 = Ok (mkAnimation 1%positive 1 50 1 0 0)) ∧
  1 ≤ frame (mkAnimation 1%positive 1 50 1 0 0) < 3.
Proof.
  assert (H1 : valid_repeatAt heap3 intro_loop).
  { unfold valid_repeatAt. change (frames_of heap3 _) with three_frames. cbn. lia. }
  assert (H2 : repeatAt intro_loop ≤ frame intro_loop) by (cbn; lia).
  assert (H3 : move 4 heap3 intro_loop 250 = Ok (mkAnimation 1%positive 1 50 1 0 0))
    by reflexivity.
  split; [by split_and!|].
  exact (move_keeps_loop_section 4 heap3 intro_loop 250 _ H1 H2 H3).
Defined.

Lemma move_stays_on_last_frame_witness :
  (0 ≤ repeatAt hold_last ∧
   repeatAt hold_last + 1 = Z.of_nat (length (frames_of heap3 hold_last)) ∧
   frame hold_last = repeatAt hold_last ∧
   move 11 heap3 hold_last 1000 = Ok (mkAnimation 1%positive 2 100 2 0 0)) ∧
  frame (mkAnimation 1%positive 2 100 2 0 0) = 2.
Proof.
  assert (H1 : 0 ≤ repeatAt hold_last) by (cbn; lia).
  assert (H2 : repeatAt hold_last + 1
               = Z.of_nat (length (frames_of heap3 hold_last))) by reflexivity.
  assert (H3 : move 11 heap3 hold_last 1000
               = Ok (mkAnimation 1%positive 2 100 2 0 0)) by reflexivity.
  split; [by split_and!|].
  exact (move_stays_on_last_frame 11 heap3 hold_last 1000 _ H1 H2 eq_refl H3).
Defined.

Lemma move_whole_lap_witness :
  (Forall (λ f, 0 < time f ≤ 2 ^ 53) (frames_of heap3 start) ∧
   repeatAt start = 0 ∧ valid_cursor heap3 start ∧
   0 ≤ elapsedMillis start ∧ 0 ≤ 50 ∧ 0 < elapsedMillis start + 50 ∧
   elapsedMillis start + 50 + total_time (frames_of heap3 start) ≤ 2 ^ 53) ∧
  total_time (frames_of heap3 start) = 300 ∧
  ∃ n : nat, ∀ fuel : nat, (n ≤ fuel)%nat →
    move fuel heap3 start (50 + 300) = move fuel heap3 start 50 ∧
    ∃ a', move fuel heap3 start 50 = Ok a'.
Proof.
  assert (H1 := three_frames_exact start eq_refl).
  destruct (three_frames_valid start eq_refl ltac:(cbn; lia) ltac:(cbn; lia))
    as [_ H2].
  assert (H3 : 0 ≤ elapsedMillis start) by (cbn; lia).
  assert (H4 : 0 ≤ 50) by lia.
  assert (H5 : 0 < elapsedMillis start + 50) by (cbn; lia).
  assert (H6 : elapsedMillis start + 50 + total_time (frames_of heap3 start)
               ≤ 2 ^ 53) by (by vm_compute).
  split; [by split_and!|]. split; [reflexivity|].
  exact (move_whole_lap heap3 start 50 H1 eq_refl H2 H3 H4 H5 H6).
Defined.

Lemma Animation_new_fresh_witness :
  is_Some (heap3 !! frames start) ∧
  frames_of (fst (Animation_new heap3)) (snd (Animation_new heap3)) = [] ∧
  frames_of (fst (Animation_new heap3)) start = three_frames.
Proof.
  assert (H : is_Some (heap3 !! frames start)) by (exists three_frames; reflexivity).
  split; [done|].
  pose proof (Animation_new_fresh heap3 start H) as Hnew.
  destruct (Animation_new heap3) as [h1 a1].
  destruct Hnew as (Hnil & _ & Hsame). by split.
Defined.

Lemma flips_replace_images_witness :
  frames (set_frames start 2%positive) ≠ frames start ∧
  frames_of (fst (flipHorizontally Examples.buffer heap3 start)) start
  = [mkFrame 10%nat 100; mkFrame 11%nat 100; mkFrame 12%nat 100].
Proof.
  assert (H : frames (set_frames start 2%positive) ≠ frames start) by discriminate.
  split; [done|].
  exact (proj1 (proj2 (proj1 (flips_replace_images Examples.buffer heap3 start
                                (set_frames start 2%positive) H)))).
Defined.

Lemma flipHorizontally_twice_witness :
  (∀ i, flipBufferHorizontally turning (flipBufferHorizontally turning i) = i) ∧
  frames_of
    (fst (flipHorizontally turning
            (fst (flipHorizontally turning turning_heap wide)) wide)) wide
  = [mkFrame 5 100; mkFrame 6 40].
Proof.
  assert (H : ∀ i, flipBufferHorizontally turning (flipBufferHorizontally turning i) = i)
    by (intros i; cbn; lia).
  split; [done|].
  exact (proj2 (flipHorizontally_twice turning turning_heap wide H)).
Defined.

Lemma rotate_restores_images_witness :
  (∀ i, buffer_rotateCounterclockwise turning (buffer_rotateClockwise turning i) = i) ∧
  frames_of
    (fst (rotateCounterclockwise turning
            (fst (rotateClockwise turning turning_heap wide))
            (snd (rotateClockwise turning turning_heap wide))))
    wide
  = [mkFrame 5 100; mkFrame 6 40].
Proof.
  assert (H : ∀ i, buffer_rotateCounterclockwise turning
                     (buffer_rotateClockwise turning i) = i)
    by (intros i; cbn; lia).
  split; [done|].
  exact (proj2 (rotate_restores_images turning turning_heap wide H)).
Defined.

Lemma rotate_leaves_copy_size_witness :
  (objects turning_world !! 1%positive = Some wide ∧
   is_Some (arrays turning_world !! frames wide)) ∧
  ∃ (w1 : world Z) (dup : loc),
    invoke_copy turning_world 1%positive = Some (w1, dup) ∧
    objects (invoke (rotateClockwise turning) w1 1%positive) !! 1%positive
      = Some (mkAnimation 1%positive 0 0 0 16 32) ∧
    objects (invoke (rotateClockwise turning) w1 1%positive) !! dup = Some wide ∧
    frames_of (arrays (invoke (rotateClockwise turning) w1 1%positive)) wide
      = [mkFrame 6 100; mkFrame 7 40].
Proof.
  assert (H1 : objects turning_world !! 1%positive = Some wide) by reflexivity.
  assert (H2 : is_Some (arrays turning_world !! frames wide)).
  { exists [mkFrame 5 100; mkFrame 6 40]. reflexivity. }
  split; [done|].
  destruct (rotate_leaves_copy_size turning turning_world 1%positive wide H1 H2)
    as (w1 & dup & Hcopy & Hthis & Hdup & Hfs).
  exists w1, dup. split_and!; [done|exact Hthis|exact Hdup|exact Hfs].
Defined.

Lemma draw_wraps_witness :
  (Camera.x camera50 = Camera.Num (inject_Z 50) ∧
   Camera.x camera_far = Camera.Num (inject_Z (50 + 2 ^ 32)) ∧
   Camera.y camera_far = Camera.y camera50) ∧
  Camera.draw camera_far blank = Camera.draw camera50 blank.
Proof.
  split; [by split_and!|].
  exact (draw_wraps camera50 camera_far blank 50 eq_refl eq_refl eq_refl).
Defined.

Lemma animation_draw_through_camera_witness :
  (current_frame heap3 start = Some (mkFrame 0%nat 100) ∧
   Camera.int32 (Camera.truncate 50) ∧ (0 <= 50)%Q) ∧
  ∃ c, draw heap3 start (Camera.draw camera50 blank) 200 200 = Ok c ∧
       Canvas.drawn c = [(0%nat, (150, 150))].
Proof.
  assert (H1 : Camera.int32 (Camera.truncate 50))
    by (vm_compute; split; [discriminate|reflexivity]).
  assert (H2 : (0 <= 50)%Q) by (unfold Qle; cbn; lia).
  split; [by split_and!|].
  exact (animation_draw_through_camera camera50 blank heap3 start
           (mkFrame 0%nat 100) 50 50 200 200 eq_refl eq_refl eq_refl H1 H1 H2 H2).
Defined.

End MoreRuns.

(** * The clock in binary64: where rounding decides *)

Section Binary64Runs.
Import PrimFloat Binary64.

(** On the example of the specification the binary64 clock and the
    integral clock agree: every value is a small integer. *)
Example binary64_move_250_then_60 :
  move 4 three_frames start 250 = Ok (mkAnimation 1%positive 2 50 0 0 0) ∧
  move 4 three_frames (mkAnimation 1%positive 2 50 0 0 0) 60
    = Ok (mkAnimation 1%positive 0 10 0 0 0).
Proof. split; reflexivity. Qed.


(** *** C4 *)

(** Three frames of 100 ms, the clock at 0.  [move(150.1); move(0.4)]
    ends on frame 1 with the clock at 50.49999999999999 (150.1 - 100 is
    rounded before 0.4 is added), [move(150.1 + 0.4)] on frame 1 with the
    clock at 50.5.  One frame of 2^53 - 1 ms: [move(2^53); move(1)] ends
    with the clock at 2, [move(2^53 + 1)] with the clock at 1, since
    2^53 + 1 rounds to 2^53. *)
Lemma move_not_additive_binary64 :
  (Forall (λ f, ltb 0 (time f) = true) (frames_of three_frames start) ∧
   leb 0 d150_1 = true ∧ leb 0 d0_4 = true ∧
   bind_result (move 3 three_frames start d150_1)
               (λ a1, move 3 three_frames a1 d0_4)
   = Ok (mkAnimation 1%positive 1 0x1.93fffffffffffp+5 0 0 0) ∧
   move 3 three_frames start (d150_1 + d0_4)
   = Ok (mkAnimation 1%positive 1 0x1.94p+5 0 0 0) ∧
   ltb 0x1.93fffffffffffp+5 0x1.94p+5 = true) ∧
  (bind_result (move 3 one_long start 9007199254740992)
               (λ a1, move 3 one_long a1 1)
   = Ok (mkAnimation 1%positive 0 2 0 0 0) ∧
   move 3 one_long start (9007199254740992 + 1)
   = Ok (mkAnimation 1%positive 0 1 0 0 0)).
Proof.
  split; split_and!; try reflexivity.
  repeat constructor.
Qed.

(** *** C6 *)


End Binary64Runs.
